(** * dns_compare.py: a shallow embedding and its properties

    The development follows the layout of [dns_compare.py]:

    - [Py]      the few Python notions the script relies on (strings,
                exceptions, [int], [float], truthiness of floats);
    - [Re]      the fragment of [re] used by [PING_RESULTS_REGEX]: a
                backtracking matcher with named groups and [search];
    - [Parser]  [class PingResults];
    - [Aio]     coroutines as finite trees of await points, [try]/[except],
                [async with];
    - [Task]    [ping], [dig], [get_results];
    - [Batch]   the body of [main]: server interleaving, task construction,
                [asyncio.gather], aggregation;
    - [Pool]    an interleaving semantics for the tasks sharing
                [asyncio.Semaphore(50)];
    - [Span]    the runs of [Pool] with a mark per task that records
                whether the task has begun its first process.

    Floats are modelled by the rational number their decimal text denotes
    ([Q]); binary rounding is outside the model.  [\d] is modelled on the
    ASCII digits. *)

From Stdlib Require Import List String Ascii Bool Arith ZArith QArith Lia Permutation.
From Stdlib Require DecimalString.
Import ListNotations.

Local Open Scope string_scope.
Local Open Scope list_scope.

(* ================================================================== *)
(** * Python basics *)
(* ================================================================== *)

Module Py.

(** A Python [str]; literals are written [lit "..."]. *)
Definition str := list ascii.

Definition lit (s : string) : str := list_ascii_of_string s.

(** ["\n"] *)
Definition nl : ascii := "010"%char.

Definition str_eqb (a b : str) : bool :=
  if list_eq_dec ascii_dec a b then true else false.

(** Exceptions.  [asyncio.CancelledError] and the other direct subclasses of
    [BaseException] are not instances of [Exception]; [raise X(msg) from e]
    records [e] as the cause. *)
#[warnings="-register-all"]
Inductive exn :=
| CancelledError
| BaseExceptionOther (name : str)
| RuntimeError (msg : str) (cause : option exn)
| ValueError (msg : str)
| TypeError (msg : str)
| IndexError (msg : str)
| OSError (msg : str).

(** [isinstance(e, asyncio.CancelledError)] *)
Definition is_CancelledError (e : exn) : bool :=
  match e with CancelledError => true | _ => false end.

(** [isinstance(e, Exception)] *)
Definition is_Exception (e : exn) : bool :=
  match e with
  | CancelledError | BaseExceptionOther _ => false
  | _ => true
  end.

(** The outcome of evaluating an expression: a value or a raised exception. *)
Inductive result (A : Type) :=
| Return (a : A)
| Raise (e : exn).
Arguments Return {A} a.
Arguments Raise {A} e.

Definition bind {A B} (r : result A) (f : A -> result B) : result B :=
  match r with
  | Return a => f a
  | Raise e => Raise e
  end.

Notation "x <- r ;; k" := (bind r (fun x => k))
  (at level 61, r at next level, right associativity).

Definition is_digit (c : ascii) : bool :=
  let n := nat_of_ascii c in (48 <=? n)%nat && (n <=? 57)%nat.

Definition digit_value (c : ascii) : Z := Z.of_nat (nat_of_ascii c - 48).

(** The value of a run of decimal digits, most significant first. *)
Definition digits_value (ds : str) : Z :=
  fold_left (fun acc c => 10 * acc + digit_value c)%Z ds 0%Z.

Definition all_digits (ds : str) : bool := forallb is_digit ds.

(** An optional sign in front of a numeric literal. *)
Definition split_sign (s : str) : bool * str :=
  match s with
  | "-"%char :: t => (true, t)
  | "+"%char :: t => (false, t)
  | _ => (false, s)
  end.

(** [int(s)] for a string [s]: an optional sign and a non-empty run of
    digits; anything else is a [ValueError].  (Surrounding white space and
    digit-group underscores, which [int] also accepts, and the
    interpreter's limit on the number of digits are not modelled.) *)
Definition int (s : str) : result Z :=
  let '(neg, ds) := split_sign s in
  match ds with
  | [] => Raise (ValueError s)
  | _ => if all_digits ds
         then Return (if neg then - digits_value ds else digits_value ds)%Z
         else Raise (ValueError s)
  end.

(** Split a literal at its first ["."]. *)
Fixpoint split_dot (s : str) : str * option str :=
  match s with
  | [] => ([], None)
  | c :: t =>
      if Ascii.eqb c "."%char then ([], Some t)
      else let '(i, f) := split_dot t in (c :: i, f)
  end.

(** [float(s)] for a string [s]: an optional sign, digits, an optional
    point, digits, with at least one digit in all; the value is the exact
    decimal.  (Exponents, [inf] and [nan] are not modelled.) *)
Definition float (s : str) : result Q :=
  let '(neg, body) := split_sign s in
  let '(ip, fp) := split_dot body in
  let fp := match fp with Some f => f | None => [] end in
  match ip ++ fp with
  | [] => Raise (ValueError s)
  | ds =>
      if all_digits ds
      then let q := Qmake (digits_value ds) (Z.to_pos (10 ^ Z.of_nat (List.length fp))) in
           Return (if neg then - q else q)%Q
      else Raise (ValueError s)
  end.

(** Truthiness of an optional float, as [filter(None, ...)] tests it:
    [None] and [0.0] are false. *)
Definition truthy (x : option Q) : bool :=
  match x with
  | None => false
  | Some q => negb (Qeq_bool q 0)
  end.

End Py.

(* ================================================================== *)
(** * The fragment of [re] used by the script *)
(* ================================================================== *)

Module Re.
Import Py.

(** Pattern syntax: literal text, [c+] and [c*] over a character class,
    [(?:r)?], concatenation, [(?P<name>r)] and [\Z]. *)
Inductive regex :=
| Chars (l : str)
| Plus (cls : ascii -> bool)
| Star (cls : ascii -> bool)
| Opt (r : regex)
| Seq (r1 r2 : regex)
| Group (name : string) (r : regex)
| EndZ.

Module Notations.
  Declare Scope re_scope.
  Delimit Scope re_scope with re.
  Infix "+++" := Seq (at level 60, right associativity) : re_scope.
End Notations.
Import Notations.

(** The text captured so far, most recent first. *)
Definition groups := list (string * str).

(** [m.group(name)]: [None] when the group took no part in the match. *)
Fixpoint group (g : groups) (name : string) : option str :=
  match g with
  | [] => None
  | (n, v) :: g' => if String.eqb n name then Some v else group g' name
  end.

(** [strip_prefix l s]: what is left of [s] after the literal text [l]. *)
Fixpoint strip_prefix (l s : str) : option str :=
  match l, s with
  | [], _ => Some s
  | a :: l', b :: s' => if Ascii.eqb a b then strip_prefix l' s' else None
  | _ :: _, [] => None
  end.

(** The text between the start of [s] and its suffix [rest]. *)
Definition consumed (s rest : str) : str :=
  firstn (List.length s - List.length rest) s.

(** Greedy repetition of a character class: the longest run is tried
    first, then shorter ones. *)
Fixpoint star (cls : ascii -> bool) (s : str) (k : str -> option groups)
  : option groups :=
  match s with
  | c :: s' =>
      if cls c
      then match star cls s' k with
           | Some g => Some g
           | None => k s
           end
      else k s
  | [] => k []
  end.

(** The backtracking matcher, in continuation-passing style: [k] is the
    rest of the pattern, and [None] asks for the next alternative. *)
Fixpoint exec (r : regex) (s : str) (g : groups)
  (k : str -> groups -> option groups) : option groups :=
  match r with
  | Chars l =>
      match strip_prefix l s with
      | Some s' => k s' g
      | None => None
      end
  | Plus cls =>
      match s with
      | c :: s' => if cls c then star cls s' (fun t => k t g) else None
      | [] => None
      end
  | Star cls => star cls s (fun t => k t g)
  | Opt r' =>
      match exec r' s g k with
      | Some g' => Some g'
      | None => k s g
      end
  | Seq r1 r2 => exec r1 s g (fun s' g' => exec r2 s' g' k)
  | Group name r' => exec r' s g (fun s' g' => k s' ((name, consumed s s') :: g'))
  | EndZ =>
      match s with
      | [] => k [] g
      | _ :: _ => None
      end
  end.

(** [pattern.match] at one position. *)
Definition match_here (r : regex) (s : str) : option groups :=
  exec r s [] (fun _ g => Some g).

(** [pattern.search(s)]: the first position, from the left, at which the
    pattern matches. *)
Fixpoint search (r : regex) (s : str) : option groups :=
  match match_here r s with
  | Some g => Some g
  | None =>
      match s with
      | [] => None
      | _ :: s' => search r s'
      end
  end.

(** [stops cls s]: a greedy run over [cls] cannot go into [s]. *)
Definition stops (cls : ascii -> bool) (s : str) : Prop :=
  match s with
  | c :: _ => cls c = false
  | [] => True
  end.

(** What a pattern matches: [Matches r s rest g g'] when [r] can consume
    [s] down to its suffix [rest], taking the groups from [g] to [g']. *)
Inductive Matches : regex -> str -> str -> groups -> groups -> Prop :=
| MChars l s g :
    Matches (Chars l) (l ++ s) s g g
| MPlus cls l s g :
    l <> [] -> forallb cls l = true ->
    Matches (Plus cls) (l ++ s) s g g
| MStar cls l s g :
    forallb cls l = true ->
    Matches (Star cls) (l ++ s) s g g
| MOptSome r s s' g g' :
    Matches r s s' g g' ->
    Matches (Opt r) s s' g g'
| MOptNone r s g :
    Matches (Opt r) s s g g
| MSeq r1 r2 s s1 s2 g g1 g2 :
    Matches r1 s s1 g g1 ->
    Matches r2 s1 s2 g1 g2 ->
    Matches (Seq r1 r2) s s2 g g2
| MGroup name r s s' g g' :
    Matches r s s' g g' ->
    Matches (Group name r) s s' g ((name, consumed s s') :: g')
| MEndZ g :
    Matches EndZ [] [] g g.

End Re.

(* ================================================================== *)
(** * [class PingResults] *)
(* ================================================================== *)

Module Parser.
Import Py Re Re.Notations.
Local Open Scope re_scope.

(** [INT = r'\d+'] *)
Definition INT : regex := Plus is_digit.

(** [FLOAT = r'\d+\.?\d*'] *)
Definition FLOAT : regex := Plus is_digit +++ Opt (Chars (lit ".")) +++ Star is_digit.

(** The first line of the pattern, up to and including its newline. *)
Definition STATS_LINE : regex :=
  Group "transmitted" INT +++ Chars (lit " packets transmitted, ") +++
  Group "received" INT +++ Chars (lit " received, ") +++
  Opt (Chars (lit "+") +++ INT +++ Chars (lit " errors, ")) +++
  Group "packet_loss" FLOAT +++ Chars (lit "% packet loss, time ") +++
  FLOAT +++ Chars (lit "ms") +++ Chars [nl].

(** The optional second line, without its newline. *)
Definition RTT_LINE : regex :=
  Chars (lit "rtt min/avg/max/mdev = ") +++
  Group "min" FLOAT +++ Chars (lit "/") +++
  Group "avg" FLOAT +++ Chars (lit "/") +++
  Group "max" FLOAT +++ Chars (lit "/") +++
  Group "mdev" FLOAT +++ Chars (lit " ms").

(** [PING_RESULTS_REGEX]; [re.MULTILINE] changes [^] and [$] only, and the
    pattern has neither. *)
Definition PING_RESULTS_REGEX : regex :=
  STATS_LINE +++ Opt RTT_LINE +++ Chars [nl] +++ EndZ.

Record PingResults := {
  transmitted : Z;
  received : Z;
  packet_loss : Q;
  min : option Q;
  avg : option Q;
  max : option Q;
  mdev : option Q;
}.

(** [int(m.group(name))]; [int(None)] is a [TypeError]. *)
Definition int_group (g : groups) (name : string) : result Z :=
  match group g name with
  | Some s => int s
  | None => Raise (TypeError (lit "int() argument must be a string, not 'NoneType'"))
  end.

(** [float(m.group(name))] *)
Definition float_group (g : groups) (name : string) : result Q :=
  match group g name with
  | Some s => float s
  | None => Raise (TypeError (lit "float() argument must be a string, not 'NoneType'"))
  end.

(** [PingResults._float_or_none] *)
Definition _float_or_none (f : option str) : result (option Q) :=
  match f with
  | None => Return None
  | Some s => x <- float s ;; Return (Some x)
  end.

(** [PingResults.__init__]: the constructed object, or the exception. *)
Definition __init__ (output : str) : result PingResults :=
  match search PING_RESULTS_REGEX output with
  | None => Raise (RuntimeError (nl :: output) None)
  | Some m =>
      t <- int_group m "transmitted" ;;
      r <- int_group m "received" ;;
      l <- float_group m "packet_loss" ;;
      mn <- _float_or_none (group m "min") ;;
      av <- _float_or_none (group m "avg") ;;
      mx <- _float_or_none (group m "max") ;;
      md <- _float_or_none (group m "mdev") ;;
      Return {| transmitted := t; received := r; packet_loss := (l / 100)%Q;
                min := mn; avg := av; max := mx; mdev := md |}
  end.

End Parser.

(* ================================================================== *)
(** * The two-line grammar, as the specification words it *)
(* ================================================================== *)

Module Grammar.
Import Py Parser.

(** An integer field: one or more digits. *)
Definition int_text (s : str) : bool :=
  match s with
  | [] => false
  | _ => all_digits s
  end.

(** A decimal field: digits, then possibly a point and further digits. *)
Definition float_text (s : str) : bool :=
  let '(ip, fp) := split_dot s in
  int_text ip && match fp with
                 | None => true
                 | Some f => all_digits f
                 end.

(** The number a decimal field denotes. *)
Definition decimal_value (s : str) : Q :=
  let '(ip, fp) := split_dot s in
  let fp := match fp with Some f => f | None => [] end in
  Qmake (digits_value (ip ++ fp)) (Z.to_pos (10 ^ Z.of_nat (List.length fp))).

(** The fields of the statistics line. *)
Record stats := {
  s_transmitted : str;
  s_received : str;
  s_errors : option str;
  s_loss : str;
  s_time : str;
}.

(** The fields of the RTT line. *)
Record rtt := {
  r_min : str;
  r_avg : str;
  r_max : str;
  r_mdev : str;
}.

Definition stats_ok (st : stats) : bool :=
  int_text (s_transmitted st) && int_text (s_received st)
  && match s_errors st with
     | Some n => int_text n
     | None => true
     end
  && float_text (s_loss st) && float_text (s_time st).

Definition rtt_ok (rt : rtt) : bool :=
  float_text (r_min rt) && float_text (r_avg rt)
  && float_text (r_max rt) && float_text (r_mdev rt).

(** ["<transmitted> packets transmitted, <received> received,
     [+<N> errors, ]<loss>% packet loss, time <T>ms"] *)
Definition stats_line (st : stats) : str :=
  s_transmitted st ++ lit " packets transmitted, "
  ++ s_received st ++ lit " received, "
  ++ match s_errors st with
     | Some n => lit "+" ++ n ++ lit " errors, "
     | None => []
     end
  ++ s_loss st ++ lit "% packet loss, time "
  ++ s_time st ++ lit "ms".

(** ["rtt min/avg/max/mdev = <a>/<b>/<c>/<d> ms"] *)
Definition rtt_line (rt : rtt) : str :=
  lit "rtt min/avg/max/mdev = "
  ++ r_min rt ++ lit "/" ++ r_avg rt ++ lit "/"
  ++ r_max rt ++ lit "/" ++ r_mdev rt ++ lit " ms".

(** The whole text: the statistics line, the RTT line or an empty line
    in its place, and nothing after the second newline. *)
Definition text (st : stats) (rt : option rtt) : str :=
  stats_line st ++ [nl]
  ++ match rt with
     | Some r => rtt_line r
     | None => []
     end
  ++ [nl].

Definition fields_ok (st : stats) (rt : option rtt) : bool :=
  stats_ok st && match rt with
                 | Some r => rtt_ok r
                 | None => true
                 end.

(** A text of the grammar. *)
Definition two_line (s : str) : Prop :=
  exists st rt, fields_ok st rt = true /\ s = text st rt.

(** No part of the text, read to its end, is a text of the grammar. *)
Definition no_match (output : str) : Prop :=
  forall pre s, output = pre ++ s -> ~ two_line s.

(** The result the fields stand for: the counts as integers, the loss
    percentage over 100, and the four latencies when there is an RTT
    line. *)
Definition denoted (st : stats) (rt : option rtt) : PingResults :=
  {| transmitted := digits_value (s_transmitted st);
     received := digits_value (s_received st);
     packet_loss := decimal_value (s_loss st) / 100;
     min := option_map (fun r => decimal_value (r_min r)) rt;
     avg := option_map (fun r => decimal_value (r_avg r)) rt;
     max := option_map (fun r => decimal_value (r_max r)) rt;
     mdev := option_map (fun r => decimal_value (r_mdev r)) rt |}.

(** The named groups of a match of the text. *)
Definition groups_of (st : stats) (rt : option rtt) : Re.groups :=
  match rt with
  | Some r => [("mdev", r_mdev r); ("max", r_max r);
               ("avg", r_avg r); ("min", r_min r)]
  | None => []
  end
  ++ [("packet_loss", s_loss st); ("received", s_received st);
      ("transmitted", s_transmitted st)].

(** The number of occurrences of a character. *)
Fixpoint occ (c : ascii) (s : str) : nat :=
  match s with
  | [] => 0
  | x :: t => (if Ascii.eqb x c then 1 else 0) + occ c t
  end.

(** What may come before the statistics line in the output: anything that
    does not end with a digit (the digit would belong to the count). *)
Definition header (pre : str) : Prop := is_digit (last pre " "%char) = false.

(** A text after which a decimal field cannot go on. *)
Definition stops_float (s : str) : Prop :=
  match s with
  | c :: _ => is_digit c = false /\ c <> "."%char
  | [] => True
  end.

Definition latency_present (r : PingResults) : Prop :=
  min r <> None /\ avg r <> None /\ max r <> None /\ mdev r <> None.

Definition latency_absent (r : PingResults) : Prop :=
  min r = None /\ avg r = None /\ max r = None /\ mdev r = None.

(** The invariants of the data model of a probe result. *)
Definition data_model_invariant (r : PingResults) : Prop :=
  (0 <= transmitted r)%Z /\
  (0 <= received r <= transmitted r)%Z /\
  0 <= packet_loss r /\ packet_loss r <= 1 /\
  (latency_present r <-> (1 <= received r)%Z).

End Grammar.

(* ================================================================== *)
(** * Coroutines *)
(* ================================================================== *)

Module Aio.
Import Py.

(** What [proc.communicate()] and [proc.returncode] give once the child
    process has ended; the streams are taken already decoded. *)
Record completed := {
  returncode : Z;
  stdout : str;
  stderr : str;
}.

(** A coroutine, unfolded into its await points.
    - [Done r]: the coroutine has returned or raised;
    - [Exec cmd k]: [await asyncio.create_subprocess_exec( *cmd, ...)]
      followed by [await proc.communicate()]; the event loop resumes the
      coroutine with the finished process, or by raising an exception at
      the await (a failure to start the process, or a cancellation);
    - [Acquire k]: [await semaphore.acquire()], resumed likewise;
    - [Release k]: [semaphore.release()], which does not suspend. *)
Inductive coro (A : Type) :=
| Done (r : result A)
| Exec (cmd : list str) (k : result completed -> coro A)
| Acquire (k : result unit -> coro A)
| Release (k : coro A).
Arguments Done {A} r.
Arguments Exec {A} cmd k.
Arguments Acquire {A} k.
Arguments Release {A} k.

(** [await c], continued by [k] on the value or the exception that the
    await expression produces. *)
Fixpoint await {A B} (c : coro A) (k : result A -> coro B) : coro B :=
  match c with
  | Done r => k r
  | Exec cmd f => Exec cmd (fun x => await (f x) k)
  | Acquire f => Acquire (fun x => await (f x) k)
  | Release c' => Release (await c' k)
  end.

(** The context managers that [get_results] enters: the shared
    [asyncio.Semaphore], or an empty [contextlib.AsyncExitStack]. *)
Inductive context_manager :=
| Semaphore
| AsyncExitStack.

(** [async with cm: body] *)
Definition async_with {A} (cm : context_manager) (body : coro A) : coro A :=
  match cm with
  | AsyncExitStack => body
  | Semaphore =>
      Acquire (fun r =>
        match r with
        | Raise e => Done (Raise e)
        | Return _ => await body (fun out => Release (Done out))
        end)
  end.

(** A run of one coroutine on its own: every process outcome is given by
    [env], and the semaphore is free. *)
Fixpoint run {A} (env : list str -> result completed) (c : coro A) : result A :=
  match c with
  | Done r => r
  | Exec cmd k => run env (k (env cmd))
  | Acquire k => run env (k (Return tt))
  | Release k => run env k
  end.

(** The argument vectors of the processes started during that run, in
    order. *)
Fixpoint trace {A} (env : list str -> result completed) (c : coro A)
  : list (list str) :=
  match c with
  | Done _ => []
  | Exec cmd k => cmd :: trace env (k (env cmd))
  | Acquire k => trace env (k (Return tt))
  | Release k => trace env k
  end.

End Aio.

(* ================================================================== *)
(** * [ping], [dig], [get_results] *)
(* ================================================================== *)

Module Task.
Import Py Parser Aio.

(** [str.isspace] on the ASCII range. *)
Definition is_space (c : ascii) : bool :=
  let n := nat_of_ascii c in
  ((9 <=? n) && (n <=? 13) || (28 <=? n) && (n <=? 32))%nat.

Fixpoint lstrip (s : str) : str :=
  match s with
  | c :: t => if is_space c then lstrip t else s
  | [] => []
  end.

(** [s.strip()] *)
Definition strip (s : str) : str := rev (lstrip (rev (lstrip s))).

(** [s.split()]: the maximal runs of non-space characters.  [cur] is the
    run being read, reversed. *)
Fixpoint split_from (cur : str) (s : str) : list str :=
  match s with
  | [] => match cur with [] => [] | _ => [rev cur] end
  | c :: t =>
      if is_space c
      then match cur with
           | [] => split_from [] t
           | _ => rev cur :: split_from [] t
           end
      else split_from (c :: cur) t
  end.

Definition split (s : str) : list str := split_from [] s.

(** The argument vector that [ping] starts.  [count] is a parameter of
    [ping], as in the source. *)
Definition ping_cmd (addr : str) (count : nat) : list str :=
  [lit "ping"; lit "-qc1"; addr].

(** [async def ping(addr, count=1)] *)
Definition ping (addr : str) (count : nat) : coro PingResults :=
  Exec (ping_cmd addr count) (fun r =>
    match r with
    | Raise e => Done (Raise e)
    | Return proc =>
        match __init__ (stdout proc) with
        | Return results => Done (Return results)
        | Raise e =>
            if is_Exception e
            then Done (Raise (RuntimeError (stderr proc) (Some e)))
            else Done (Raise e)
        end
    end).

(** The argument vector that [dig] starts. *)
Definition dig_cmd (domain : str) (server : option str) : list str :=
  [lit "dig"; lit "+short"]
  ++ match server with
     | Some sv => [lit "@" ++ sv]
     | None => []
     end
  ++ [domain].

(** [async def dig(domain, server=None)] *)
Definition dig (domain : str) (server : option str) : coro (option str) :=
  Exec (dig_cmd domain server) (fun r =>
    match r with
    | Raise e => Done (Raise e)
    | Return proc =>
        if negb (returncode proc =? 0)%Z
        then Done (Raise (RuntimeError (stderr proc) None))
        else match split (strip (stdout proc)) with
             | [] => Done (Return None)
             | a :: _ => Done (Return (Some a))
             end
    end).

(** [f'{x}'] for a parameter whose default is [None]. *)
Definition fmt (x : option str) : str :=
  match x with
  | Some s => s
  | None => lit "None"
  end.

(** [f'Dig error: {domain} from {provider} ({server})'] *)
Definition dig_error (domain : str) (provider server : option str) : str :=
  lit "Dig error: " ++ domain ++ lit " from " ++ fmt provider
  ++ lit " (" ++ fmt server ++ lit ")".

(** [f'Ping error: {domain} ({addr}) from {provider} ({server})'] *)
Definition ping_error (domain addr : str) (provider server : option str) : str :=
  lit "Ping error: " ++ domain ++ lit " (" ++ addr ++ lit ") from " ++ fmt provider
  ++ lit " (" ++ fmt server ++ lit ")".

(** The two handlers that follow each [try] of [get_results]:
    [except asyncio.CancelledError: raise] and
    [except Exception as e: raise RuntimeError(msg) from e]. *)
Definition handlers {A} (msg : str) (e : exn) : coro A :=
  if is_CancelledError e then Done (Raise e)
  else if is_Exception e then Done (Raise (RuntimeError msg (Some e)))
  else Done (Raise e).

(** [async def get_results(domain, server=None, provider=None, count=1,
    semaphore=None)] *)
Definition get_results (domain : str) (server provider : option str)
  (count : nat) (semaphore : option context_manager)
  : coro (option PingResults) :=
  let semaphore :=
    match semaphore with
    | None => AsyncExitStack
    | Some cm => cm
    end in
  async_with semaphore
    (await (dig domain server) (fun r =>
       match r with
       | Raise e => handlers (dig_error domain provider server) e
       | Return None => Done (Return None)
       | Return (Some addr) =>
           await (ping addr count) (fun r' =>
             match r' with
             | Raise e => handlers (ping_error domain addr provider server) e
             | Return results => Done (Return (Some results))
             end)
       end)).

End Task.

(* ================================================================== *)
(** * The body of [main] *)
(* ================================================================== *)

Module Batch.
Import Py Parser Aio Task.

(** [SERVERS]; a [dict] is kept as the list of its items in insertion
    order, which is the order in which Python iterates over it. *)
Definition SERVERS : list (str * list str) := [
  (lit "cloudflare", [lit "1.1.1.1"; lit "1.0.0.1"]);
  (lit "google", [lit "8.8.8.8"; lit "8.8.4.4"])
].

(** [DOMAINS] *)
Definition DOMAINS : list str := [
  lit "google.com";
  lit "youtube.com";
  lit "facebook.com";
  lit "amazon.com";
  lit "wikipedia.org";
  lit "yahoo.com";
  lit "reddit.com";
  lit "pornhub.com";
  lit "instagram.com";
  lit "twitter.com";
  lit "ebay.com";
  lit "xvideos.com";
  lit "fandom.com";
  lit "cnn.com";
  lit "craigslist.org";
  lit "walmart.com";
  lit "weather.com";
  lit "xnxx.com";
  lit "espn.com";
  lit "imdb.com";
  lit "zoom.us";
  lit "foxnews.com";
  lit "linkedin.com";
  lit "bing.com";
  lit "microsoft.com";
  lit "live.com";
  lit "usps.com";
  lit "msn.com";
  lit "homedepot.com";
  lit "paypal.com";
  lit "xhamster.com";
  lit "indeed.com";
  lit "duckduckgo.com";
  lit "etsy.com";
  lit "zillow.com";
  lit "pinterest.com";
  lit "office.com";
  lit "nytimes.com";
  lit "twitch.tv";
  lit "quora.com";
  lit "accuweather.com";
  lit "apple.com";
  lit "netflix.com";
  lit "healthline.com";
  lit "target.com";
  lit "instructure.com";
  lit "bestbuy.com";
  lit "yelp.com";
  lit "att.com";
  lit "lowes.com";
  lit "ups.com";
  lit "t-mobile.com";
  lit "microsoftonline.com";
  lit "fedex.com";
  lit "washingtonpost.com";
  lit "realtor.com";
  lit "chase.com";
  lit "quizlet.com";
  lit "webmd.com";
  lit "github.com";
  lit "stackoverflow.com";
  lit "archiveofourown.org";
  lit "bbc.com";
  lit "wellsfargo.com";
  lit "xfinity.com";
  lit "aol.com";
  lit "chaturbate.com";
  lit "intuit.com";
  lit "tripadvisor.com";
  lit "cheatsheet.com";
  lit "nih.gov";
  lit "bankofamerica.com";
  lit "adobe.com";
  lit "wayfair.com";
  lit "weather.gov";
  lit "usatoday.com";
  lit "ca.gov";
  lit "cnbc.com";
  lit "allrecipes.com";
  lit "capitalone.com";
  lit "dailymail.co.uk";
  lit "samsung.com";
  lit "drudgereport.com";
  lit "hulu.com";
  lit "businessinsider.com";
  lit "roblox.com";
  lit "spankbang.com";
  lit "npr.org";
  lit "fidelity.com";
  lit "nypost.com";
  lit "pch.com";
  lit "onlyfans.com";
  lit "adp.com";
  lit "imgur.com";
  lit "mayoclinic.org";
  lit "costco.com";
  lit "youporn.com";
  lit "theguardian.com";
  lit "marketwatch.com";
  lit "ign.com"
].

Definition num_domains : nat := 100.
Definition best_of : nat := 3.

(** The initial value of [asyncio.Semaphore(50)]. *)
Definition semaphore_value : nat := 50.

(** ** Alternating between the addresses of the providers *)

(** [rows[i].append(x)]; an index past the end is an [IndexError]. *)
Definition append_at {X} (rows : list (list X)) (i : nat) (x : X)
  : result (list (list X)) :=
  match nth_error rows i with
  | None => Raise (IndexError (lit "list index out of range"))
  | Some row => Return (firstn i rows ++ (row ++ [x]) :: skipn (S i) rows)
  end.

(** One turn of the inner loop [for i, addr in enumerate(addrs)]. *)
Definition add_server (rows : list (list (str * str))) (server : str)
  (i : nat) (addr : str) : result (list (list (str * str))) :=
  let rows := if (List.length rows <=? i)%nat then rows ++ [[]] else rows in
  append_at rows i (server, addr).

(** The inner loop, from index [i] on. *)
Fixpoint for_addrs (server : str) (i : nat) (addrs : list str)
  (rows : list (list (str * str))) : result (list (list (str * str))) :=
  match addrs with
  | [] => Return rows
  | addr :: rest =>
      rows' <- add_server rows server i addr ;;
      for_addrs server (S i) rest rows'
  end.

(** The outer loop [for server, addrs in SERVERS.items()]. *)
Fixpoint for_servers (items : list (str * list str))
  (rows : list (list (str * str))) : result (list (list (str * str))) :=
  match items with
  | [] => Return rows
  | (server, addrs) :: rest =>
      rows' <- for_addrs server 0 addrs rows ;;
      for_servers rest rows'
  end.

(** [server_addrs], after the flattening comprehension. *)
Definition server_addrs (servers : list (str * list str))
  : result (list (str * str)) :=
  rows <- for_servers servers [] ;;
  Return (List.concat rows).

(** What one pass of the inner loop does to the rows: the [i]-th new pair
    goes to the end of row [i], and rows are added when they run out. *)
Fixpoint zip_append {X} (rows : list (list X)) (xs : list X) : list (list X) :=
  match rows, xs with
  | row :: rows', x :: xs' => (row ++ [x]) :: zip_append rows' xs'
  | [], _ => map (fun x => [x]) xs
  | _, [] => rows
  end.

(** The rows after the outer loop. *)
Definition rows_of (servers : list (str * list str)) : list (list (str * str)) :=
  fold_left (fun rows '(server, addrs) => zip_append rows (map (pair server) addrs))
            servers [].

(** The order the comment of the source asks for, written by index:
    the [i]-th address of every provider that has one, for [i = 0, 1, ...]. *)
Definition ith_servers (servers : list (str * list str)) (i : nat)
  : list (str * str) :=
  flat_map (fun '(server, addrs) =>
              match nth_error addrs i with
              | Some addr => [(server, addr)]
              | None => []
              end) servers.

Definition most_addrs (servers : list (str * list str)) : nat :=
  fold_right (fun '(_, addrs) n => Nat.max (List.length addrs) n) 0%nat servers.

Definition index_major (servers : list (str * list str)) : list (str * str) :=
  flat_map (ith_servers servers) (seq 0 (most_addrs servers)).

(** The element of an optional value, as a list. *)
Definition opt_list {X} (o : option X) : list X :=
  match o with
  | Some x => [x]
  | None => []
  end.

(** Every (provider, address) pair of the configuration, provider by
    provider. *)
Definition configured_pairs (servers : list (str * list str))
  : list (str * str) :=
  flat_map (fun '(server, addrs) => map (pair server) addrs) servers.

(** ** Building the awaitables *)

(** The three lists [providers], [domains], [awaitables] that the nested
    loop fills in step. *)
Definition jobs (domains : list str) (pairs : list (str * str))
  : list (str * str * coro (option PingResults)) :=
  flat_map (fun domain =>
    map (fun '(provider, server) =>
           (provider, domain,
            get_results domain (Some server) (Some provider) best_of (Some Semaphore)))
        pairs)
    (firstn num_domains domains).

Definition providers_of {X} (js : list (str * str * X)) : list str :=
  map (fun j => fst (fst j)) js.
Definition domains_of {X} (js : list (str * str * X)) : list str :=
  map (fun j => snd (fst j)) js.
Definition awaitables_of {X} (js : list (str * str * X)) : list X :=
  map snd js.

(** ** [asyncio.gather( *awaitables)] with [return_exceptions] left at
    [False]: when every awaitable returns, the list of the values in the
    order of the awaitables; otherwise the exception of an awaitable that
    raised (the one that raised first in time) is raised in the caller.
    [outs] are the outcomes of the awaitables. *)
Inductive gather {X} : list (result X) -> result (list X) -> Prop :=
| gather_values values :
    gather (map Return values) (Return values)
| gather_raises outs e :
    In (Raise e) outs ->
    gather outs (Raise e).

(** ** Aggregation *)

(** A [defaultdict]: [update default f d k] is [d[k] = f(d[k])], where a
    missing key is first inserted, last, with the default value. *)
Fixpoint update {V} (default : V) (f : V -> V) (d : list (str * V)) (k : str)
  : list (str * V) :=
  match d with
  | [] => [(k, f default)]
  | (k', v) :: d' =>
      if str_eqb k' k then (k', f v) :: d'
      else (k', v) :: update default f d' k
  end.

(** [results_by_provider[domain][provider].append(_min)] *)
Definition record_min (by_provider : list (str * list (str * list (option Q))))
  (provider domain : str) (_min : option Q)
  : list (str * list (str * list (option Q))) :=
  update [] (fun d => update [] (fun mins => mins ++ [_min]) d provider)
         by_provider domain.

(** The number of minima held in [results_by_provider]. *)
Definition count_mins (by_provider : list (str * list (str * list (option Q)))) : nat :=
  list_sum (map (fun '(_, d) => list_sum (map (fun '(_, mins) => List.length mins) d))
                by_provider).

(** [zip(providers, domains, mins)] *)
Fixpoint zip3 {X Y W} (xs : list X) (ys : list Y) (ws : list W)
  : list (X * Y * W) :=
  match xs, ys, ws with
  | x :: xs', y :: ys', w :: ws' => (x, y, w) :: zip3 xs' ys' ws'
  | _, _, _ => []
  end.

(** [domain -> provider -> mins] *)
Definition group_mins (providers domains : list str) (mins : list (option Q))
  : list (str * list (str * list (option Q))) :=
  fold_left (fun acc '(provider, domain, _min) => record_min acc provider domain _min)
            (zip3 providers domains mins) [].

(** A table cell before it is turned into text: the mean or the [∞]
    sentinel, and the [(filtered_len/len(mins))] suffix when there is one. *)
Inductive mean_field :=
| Mean (q : Q)
| NoData.

Record cell := {
  usable : nat;
  attempted : nat;
  mean : mean_field;
  annotation : option (nat * nat);
}.

(** A minimum latency that is not [None]. *)
Definition present (x : option Q) : bool :=
  match x with
  | Some _ => true
  | None => false
  end.

(** [sum(filtered)] *)
Definition sum (filtered : list (option Q)) : Q :=
  fold_left (fun acc x => match x with Some q => acc + q | None => acc end)%Q
            filtered 0%Q.

(** The body of the loop [for key, mins in d.items()]. *)
Definition cell_of (mins : list (option Q)) : cell :=
  let filtered := filter truthy mins in
  let _sum := sum filtered in
  let filtered_len := List.length filtered in
  {| usable := filtered_len;
     attempted := List.length mins;
     mean := match filtered_len with
             | O => NoData
             | _ => Mean (_sum / inject_Z (Z.of_nat filtered_len))
             end;
     annotation := if (filtered_len =? List.length mins)%nat then None
                   else Some (filtered_len, List.length mins) |}.

(** [str(n)] for a count. *)
Definition str_of_nat (n : nat) : str :=
  list_ascii_of_string (DecimalString.NilZero.string_of_uint (Nat.to_uint n)).

(** The text of a cell; [str_of_float] stands for [str] on floats. *)
Definition cell_text (str_of_float : Q -> str) (c : cell) : str :=
  match mean c with
  | Mean q => str_of_float q
  | NoData => lit "∞"
  end
  ++ match annotation c with
     | None => []
     | Some (a, b) => lit " (" ++ str_of_nat a ++ lit "/" ++ str_of_nat b ++ lit ")"
     end.

(** [mins = [None if result is None else result.min for result in results]] *)
Definition mins_of (results : list (option PingResults)) : list (option Q) :=
  map (fun result => match result with
                     | None => None
                     | Some r => min r
                     end) results.

Definition table := list (str * list (str * cell)).

(** The number of outcomes that went into a table. *)
Definition total_attempted (t : table) : nat :=
  list_sum (map (fun '(_, d) => list_sum (map (fun '(_, c) => attempted c) d)) t).

(** [results_by_provider] after both loops. *)
Definition aggregate (providers domains : list str)
  (results : list (option PingResults)) : table :=
  map (fun '(domain, d) => (domain, map (fun '(key, mins) => (key, cell_of mins)) d))
      (group_mins providers domains (mins_of results)).

(** [main], from the configuration to the table it prints, given the
    outcomes [outs] of the awaitables it hands to [gather]. *)
Definition main_with (servers : list (str * list str)) (domains : list str)
  (outs : list (result (option PingResults))) (final : result table) : Prop :=
  match server_addrs servers with
  | Raise e => final = Raise e
  | Return pairs =>
      let js := jobs domains pairs in
      List.length outs = List.length js /\
      exists gathered,
        gather outs gathered /\
        final = (results <- gathered ;;
                 Return (aggregate (providers_of js) (domains_of js) results))
  end.

End Batch.

(* ================================================================== *)
(** * Tasks sharing the semaphore *)
(* ================================================================== *)

Module Pool.
Import Py Aio.

Section Pool.
Context {A : Type}.

(** The semaphore's counter, and every task with a flag that records
    whether it is inside [async with semaphore]. *)
Record state := {
  value : nat;
  tasks : list (bool * coro A);
}.

(** One step of the event loop: it resumes one task.
    [semaphore.acquire()] returns only when the counter is positive, and
    decrements it; a task waiting in [acquire] or for a process can be
    resumed by a cancellation; a process ends with any outcome. *)
Inductive step : state -> state -> Prop :=
| step_acquire n before k after :
    step {| value := S n; tasks := before ++ (false, Acquire k) :: after |}
         {| value := n; tasks := before ++ (true, k (Return tt)) :: after |}
| step_cancel_acquire n before k after :
    step {| value := n; tasks := before ++ (false, Acquire k) :: after |}
         {| value := n; tasks := before ++ (false, k (Raise CancelledError)) :: after |}
| step_exec n before held cmd k out after :
    step {| value := n; tasks := before ++ (held, Exec cmd k) :: after |}
         {| value := n; tasks := before ++ (held, k out) :: after |}
| step_release n before held k after :
    step {| value := n; tasks := before ++ (held, Release k) :: after |}
         {| value := S n; tasks := before ++ (false, k) :: after |}.

Definition init (n : nat) (cs : list (coro A)) : state :=
  {| value := n; tasks := map (pair false) cs |}.

Inductive reachable (s0 : state) : state -> Prop :=
| reach_init : reachable s0 s0
| reach_step s s' : reachable s0 s -> step s s' -> reachable s0 s'.

(** A task that is waiting for [dig] or for [ping]. *)
Definition in_process (t : bool * coro A) : bool :=
  match snd t with
  | Exec _ _ => true
  | _ => false
  end.

Definition in_flight (s : state) : nat := List.length (filter in_process (tasks s)).

Definition holders (s : state) : nat := List.length (filter fst (tasks s)).

(** [gated held c]: along every path of [c], acquisitions and releases
    alternate starting from [held], processes are only awaited while the
    semaphore is held, and the coroutine ends without holding it. *)
Fixpoint gated (held : bool) (c : coro A) : Prop :=
  match c with
  | Done _ => held = false
  | Exec _ k => held = true /\ forall out, gated true (k out)
  | Acquire k =>
      held = false /\ gated true (k (Return tt)) /\
      forall e, gated false (k (Raise e))
  | Release k => held = true /\ gated false k
  end.

(** The invariant: the counter and the holders add up to the initial
    value, and every task is where its flag says. *)
Definition invariant (n0 : nat) (s : state) : Prop :=
  (value s + holders s = n0)%nat /\
  Forall (fun t => gated (fst t) (snd t)) (tasks s).

(** A coroutine that does not touch the semaphore. *)
Fixpoint ungated (c : coro A) : Prop :=
  match c with
  | Done _ => True
  | Exec _ k => forall out, ungated (k out)
  | Acquire _ | Release _ => False
  end.

End Pool.
Arguments state A : clear implicits.

End Pool.

(* ================================================================== *)
(** * Sample inputs *)
(* ================================================================== *)

Module Samples.
Import Py Grammar Aio Task.

(** ["3 packets transmitted, 0 received, +3 errors, 100% packet loss,
     time 2003ms"], no RTT line. *)
Definition all_lost : stats :=
  {| s_transmitted := lit "3"; s_received := lit "0";
     s_errors := Some (lit "3"); s_loss := lit "100"; s_time := lit "2003" |}.


(** ["1 packets transmitted, 5 received, 250% packet loss, time 0ms"]:
    more packets received than transmitted, and a loss above 1. *)
Definition inconsistent : stats :=
  {| s_transmitted := lit "1"; s_received := lit "5";
     s_errors := None; s_loss := lit "250"; s_time := lit "0" |}.

(** Whether [cmd] starts the program [name]. *)
Definition starts (name : string) (cmd : list str) : bool :=
  match cmd with
  | prog :: _ => str_eqb prog (lit name)
  | [] => false
  end.

Definition answer (out : string) : result completed :=
  Return {| returncode := 0; stdout := lit out ++ [nl]; stderr := [] |}.

(** [dig] exits with status 9. *)
Definition failing_dig (cmd : list str) : result completed :=
  Return {| returncode := 9; stdout := [];
            stderr := lit "connection timed out" |}.

(** [dig] answers; [ping] prints nothing but a newline on its standard
    output. *)
Definition unparsable_ping (cmd : list str) : result completed :=
  if starts "dig" cmd then answer "93.184.216.34"
  else Return {| returncode := 2; stdout := [nl];
                 stderr := lit "ping: sendmsg: Network is unreachable" |}.

(** [dig] answers; the task is cancelled while it waits for [ping]. *)
Definition cancelled_in_ping (cmd : list str) : result completed :=
  if starts "dig" cmd then answer "93.184.216.34"
  else Raise CancelledError.

(** The fields of a reply to one packet. *)
Definition one_received : stats :=
  {| s_transmitted := lit "1"; s_received := lit "1";
     s_errors := None; s_loss := lit "0"; s_time := lit "0" |}.

Definition one_rtt : rtt :=
  {| r_min := lit "11.5"; r_avg := lit "11.5";
     r_max := lit "11.5"; r_mdev := lit "0.000" |}.

(** The lines that [ping -q] prints before the statistics line. *)
Definition ping_header : str :=
  lit "PING 93.184.216.34 (93.184.216.34) 56(84) bytes of data." ++ [nl]
  ++ [nl] ++ lit "--- 93.184.216.34 ping statistics ---" ++ [nl].

(** A configuration with one provider and one address, and two domains. *)
Definition one_server : list (str * list str) := [(lit "A", [lit "a1"])].

Definition two_domains : list str := [lit "bad.example"; lit "good.example"].

(** A reply of [ping] to one packet. *)
Definition one_reply : str :=
  lit "1 packets transmitted, 1 received, 0% packet loss, time 0ms" ++ [nl]
  ++ lit "rtt min/avg/max/mdev = 11.5/11.5/11.5/0.000 ms" ++ [nl].

(** [dig] fails for [bad.example] and answers for every other domain;
    [ping] gets one reply. *)
Definition bad_domain (cmd : list str) : result completed :=
  if starts "dig" cmd
  then if str_eqb (last cmd []) (lit "bad.example")
       then failing_dig cmd
       else answer "93.184.216.34"
  else Return {| returncode := 0; stdout := one_reply; stderr := [] |}.

(** The outcomes of the two tasks of that batch. *)
Definition bad_domain_outs : list (result (option Parser.PingResults)) :=
  map (run bad_domain)
      (Batch.awaitables_of (Batch.jobs two_domains [(lit "A", lit "a1")])).

(** The coroutine after its [await semaphore.acquire()] has returned. *)
Definition acquired {A} (c : coro A) : coro A :=
  match c with
  | Acquire k => k (Return tt)
  | _ => c
  end.

(** The batch of that configuration once its first task has the
    semaphore and waits for [dig]. *)
Definition first_in_dig : Pool.state (option Parser.PingResults) :=
  match Batch.awaitables_of (Batch.jobs two_domains (Batch.index_major one_server)) with
  | first :: rest =>
      {| Pool.value := 49;
         Pool.tasks := (true, acquired first) :: map (pair false) rest |}
  | [] => Pool.init Batch.semaphore_value []
  end.

(** Two minimum latencies of one cell, the first of them [0.0]. *)
Definition zero_and_ten : list (option Q) := [Some 0; Some 10].

End Samples.

(* ================================================================== *)
(** * Further notions for the properties of the script *)
(* ================================================================== *)

Module Words.
Import Py Task.

(** A word of [str.split]: no white space in it. *)
Definition space_free (w : str) : bool := forallb (fun c => negb (is_space c)) w.

(** White space only. *)
Definition blank (s : str) : bool := forallb is_space s.

(** A text at which a word ends: the end, or white space. *)
Definition word_end (s : str) : Prop :=
  match s with
  | [] => True
  | c :: _ => is_space c = true
  end.

End Words.

Module Glue.
Import Py Grammar.

(** The statistics whose transmitted count has the digits [ds] in front. *)
Definition glued (ds : str) (st : stats) : stats :=
  {| s_transmitted := ds ++ s_transmitted st;
     s_received := s_received st;
     s_errors := s_errors st;
     s_loss := s_loss st;
     s_time := s_time st |}.

End Glue.

Module Cases.
Import Py Grammar Aio Task Samples.

(** [dig +short] answering with a CNAME and two addresses. *)
Definition three_lines : str :=
  lit "www.example.net." ++ [nl] ++ lit "93.184.216.34" ++ [nl]
  ++ lit "93.184.216.35" ++ [nl].

(** [dig] answers with nothing but a newline. *)
Definition no_record (cmd : list str) : result completed :=
  Return {| returncode := 0; stdout := [nl]; stderr := [] |}.

(** [dig] answers; [ping] loses its packet and exits with status 1. *)
Definition lost_ping (cmd : list str) : result completed :=
  if starts "dig" cmd then answer "93.184.216.34"
  else Return {| returncode := 1;
                 stdout := ping_header ++ text all_lost None;
                 stderr := [] |}.

End Cases.

Module Dict.
Import Py Batch.

(** [d.get(k)] on a dict kept as its items. *)
Fixpoint get {V} (d : list (str * V)) (k : str) : option V :=
  match d with
  | [] => None
  | (k', v) :: d' => if str_eqb k' k then Some v else get d' k
  end.

(** The minima held for a domain and a provider; none when a key is
    missing. *)
Definition mins_at (by_provider : list (str * list (str * list (option Q))))
  (domain provider : str) : list (option Q) :=
  match get by_provider domain with
  | Some d => match get d provider with
              | Some mins => mins
              | None => []
              end
  | None => []
  end.

(** The minima, in order, of the zipped entries of one domain and one
    provider. *)
Definition mins_for (items : list (str * str * option Q))
  (domain provider : str) : list (option Q) :=
  map snd (filter (fun '(p, d, _) => str_eqb d domain && str_eqb p provider) items).

(** One addition of [sum]. *)
Definition add_min (acc : Q) (x : option Q) : Q :=
  match x with Some q => acc + q | None => acc end.

(** The keys in the order in which they are first seen. *)
Definition first_seen (ks : list str) : list str :=
  fold_left (fun seen k => if existsb (fun k' => str_eqb k' k) seen
                           then seen else seen ++ [k]) ks [].

(** The cell of a domain and a provider in the table. *)
Definition cell_at (t : table) (domain provider : str) : option cell :=
  match get t domain with
  | Some d => get d provider
  | None => None
  end.

End Dict.

Module PoolRun.
Import Py Aio Pool.

Section PoolRun.
Context {A : Type}.

(** A task that has returned or raised. *)
Definition finished (t : bool * coro A) : bool :=
  match snd t with
  | Done _ => true
  | _ => false
  end.

(** The steps of the event loop other than cancellations of a task that
    waits for the semaphore. *)
Inductive advance : state A -> state A -> Prop :=
| advance_acquire n before k after :
    advance {| value := S n; tasks := before ++ (false, Acquire k) :: after |}
            {| value := n; tasks := before ++ (true, k (Return tt)) :: after |}
| advance_exec n before held cmd k out after :
    advance {| value := n; tasks := before ++ (held, Exec cmd k) :: after |}
            {| value := n; tasks := before ++ (held, k out) :: after |}
| advance_release n before held k after :
    advance {| value := n; tasks := before ++ (held, Release k) :: after |}
            {| value := S n; tasks := before ++ (false, k) :: after |}.

(** [steps n s s']: the event loop goes from [s] to [s'] in [n] steps. *)
Inductive steps : nat -> state A -> state A -> Prop :=
| steps_O s : steps 0 s s
| steps_S n s s1 s2 : steps n s s1 -> step s1 s2 -> steps (S n) s s2.

(** [within n c]: on every path, [c] is resumed at most [n] times before
    it is finished. *)
Fixpoint within (n : nat) (c : coro A) {struct c} : Prop :=
  match c with
  | Done _ => True
  | Exec _ k =>
      match n with
      | O => False
      | S m => forall out, within m (k out)
      end
  | Acquire k =>
      match n with
      | O => False
      | S m => forall r, within m (k r)
      end
  | Release k =>
      match n with
      | O => False
      | S m => within m k
      end
  end.

End PoolRun.

End PoolRun.

Module Report.
Import Py Batch Dict.

(** ['\t'] *)
Definition tab : ascii := "009"%char.

(** [sep.join(parts)] *)
Fixpoint join (sep : str) (parts : list str) : str :=
  match parts with
  | [] => []
  | [part] => part
  | part :: rest => part ++ sep ++ join sep rest
  end.

(** [str(d[provider])]: the text of the cell; for a provider that is not
    a key of [d], the [defaultdict] makes up an empty list, whose text is
    ['[]']. *)
Definition cell_of_provider (str_of_float : Q -> str) (d : list (str * cell))
  (provider : str) : str :=
  match get d provider with
  | Some c => cell_text str_of_float c
  | None => lit "[]"
  end.

(** One [print] of the loop over [results_by_provider.items()]. *)
Definition row_line (str_of_float : Q -> str) (servers : list (str * list str))
  (row : str * list (str * cell)) : str :=
  let '(domain, d) := row in
  join [tab] (domain :: map (fun provider => cell_of_provider str_of_float d provider)
                            (map fst servers)).

(** The lines that [main] prints: the header, then one line per row. *)
Definition report (str_of_float : Q -> str) (servers : list (str * list str))
  (t : table) : list str :=
  ([tab] ++ join [tab] (map fst servers))
  :: map (row_line str_of_float servers) t.

(** The number of tabs in a line. *)
Definition tabs (line : str) : nat := Grammar.occ tab line.

End Report.

Module Rejected.
Import Py Grammar.





End Rejected.

Module Runs.
Import Py Parser Aio Task Batch Pool Samples.

(** The coroutine after its process has ended with [out]. *)
Definition resumed {A} (out : result completed) (c : coro A) : coro A :=
  match c with
  | Exec _ k => k out
  | _ => c
  end.

(** The coroutine after its [semaphore.release()]. *)
Definition released {A} (c : coro A) : coro A :=
  match c with
  | Release k => k
  | _ => c
  end.

(** The coroutine cancelled while it waits in [semaphore.acquire()]. *)
Definition cancelled_waiting {A} (c : coro A) : coro A :=
  match c with
  | Acquire k => k (Raise CancelledError)
  | _ => c
  end.

(** The batch of [Samples.first_in_dig] with the semaphore at [v], its
    first task brought to [first] and every other task to [others]. *)
Definition batch_at (v : nat) (held : bool)
  (first others : coro (option PingResults) -> coro (option PingResults))
  : state (option PingResults) :=
  match awaitables_of (jobs two_domains (index_major one_server)) with
  | c :: rest =>
      {| value := v;
         tasks := (held, first c) :: map (fun c' => (false, others c')) rest |}
  | [] => init semaphore_value []
  end.

(** [dig] has failed in the first task, which is about to release. *)
Definition dig_failed : state (option PingResults) :=
  batch_at 49 true (fun c => resumed (failing_dig []) (acquired c)) (fun c => c).

(** The first task has released the semaphore and raised. *)
Definition first_released : state (option PingResults) :=
  batch_at 50 false
    (fun c => released (resumed (failing_dig []) (acquired c))) (fun c => c).

(** The second task has then been cancelled while it waited for the
    semaphore: every task has finished. *)
Definition all_finished : state (option PingResults) :=
  batch_at 50 false
    (fun c => released (resumed (failing_dig []) (acquired c))) cancelled_waiting.

End Runs.

Module Span.
Import Py Parser Aio Task Batch Pool Samples.

(** [counts P l n]: exactly [n] members of [l] satisfy [P]. *)
Inductive counts {X : Type} (P : X -> Prop) : list X -> nat -> Prop :=
| counts_nil : counts P [] 0
| counts_in x l n : P x -> counts P l n -> counts P (x :: l) (S n)
| counts_out x l n : ~ P x -> counts P l n -> counts P (x :: l) n.

Section Span.
Context {A : Type}.

(** The event loop with one mark per task, which records whether the task
    has ever stood at a process, that is, whether it has passed the
    beginning of its first stage. *)
Record history := {
  now : state A;
  begun : list bool;
}.

(** The marks once the event loop has brought the tasks to [ts]. *)
Fixpoint observe (marks : list bool) (ts : list (bool * coro A)) : list bool :=
  match marks, ts with
  | m :: marks', t :: ts' => (m || in_process t) :: observe marks' ts'
  | _, _ => []
  end.

Definition start (n : nat) (cs : list (coro A)) : history :=
  {| now := init n cs;
     begun := observe (map (fun _ => false) cs) (tasks (init n cs)) |}.

(** The histories of the runs of [Pool.step]. *)
Inductive reaches (h0 : history) : history -> Prop :=
| reaches_start : reaches h0 h0
| reaches_step h s' :
    reaches h0 h -> step (now h) s' ->
    reaches h0 {| now := s'; begun := observe (begun h) (tasks s') |}.

(** On some path the coroutine still comes to a process, or it stands at
    one: its last stage has not ended. *)
Fixpoint process_ahead (c : coro A) : Prop :=
  match c with
  | Done _ => False
  | Exec _ _ => True
  | Acquire k => exists r, process_ahead (k r)
  | Release k => process_ahead k
  end.

(** Every task with its mark. *)
Definition marked_tasks (h : history) : list (bool * (bool * coro A)) :=
  combine (begun h) (tasks (now h)).

(** The task is past the beginning of its first stage and not yet past
    the end of its last one. *)
Definition in_stages (t : bool * (bool * coro A)) : Prop :=
  fst t = true /\ process_ahead (snd (snd t)).

(** The task is inside [async with semaphore]. *)
Definition inside (t : bool * (bool * coro A)) : bool := fst (snd t).

(** The coroutine has returned or raised. *)
Definition gone (c : coro A) : Prop :=
  match c with
  | Done _ => True
  | _ => False
  end.

(** The coroutine goes through its processes, then releases the semaphore
    and is over. *)
Fixpoint staged (c : coro A) : Prop :=
  match c with
  | Exec _ k => forall out, staged (k out)
  | Release k => gone k
  | Done _ | Acquire _ => False
  end.

(** The coroutine waits for the semaphore; with it, it goes through its
    processes and releases, and without it, it is over. *)
Definition entering (c : coro A) : Prop :=
  match c with
  | Acquire k => staged (k (Return tt)) /\ forall e, gone (k (Raise e))
  | _ => False
  end.

(** Where a task with mark [m] is: before the semaphore, with no process
    begun; inside [async with]; or over. *)
Definition phase (m : bool) (t : bool * coro A) : Prop :=
  (in_process t = true -> m = true) /\
  ((m = false /\ fst t = false /\ entering (snd t)) \/
   (fst t = true /\ staged (snd t)) \/
   (fst t = false /\ gone (snd t))).

End Span.
Arguments history A : clear implicits.

(** The batch of [Samples.first_in_dig] with its marks: the first task
    has begun [dig]. *)
Definition first_begun : history (option PingResults) :=
  {| now := first_in_dig; begun := [true; false] |}.

(** A task that would give the semaphore back between its two stages. *)
Definition released_between (domain addr : str) : coro PingResults :=
  await (async_with Semaphore (dig domain None))
        (fun _ => async_with Semaphore (ping addr 1)).

End Span.

(* ================================================================== *)
(** * Facts about the matcher *)
(* ================================================================== *)

Module ReFacts.
Import Py Re.

Lemma strip_prefix_app (l s : str) : strip_prefix l (l ++ s) = Some s.
Proof.
  induction l as [|a l IH]; simpl; [reflexivity|].
  now rewrite Ascii.eqb_refl.
Qed.

Lemma strip_prefix_sound (l s s' : str) :
  strip_prefix l s = Some s' -> s = l ++ s'.
Proof.
  revert s; induction l as [|a l IH]; intros s; simpl.
  - now intros [= ->].
  - destruct s as [|b s]; [discriminate|].
    destruct (Ascii.eqb a b) eqn:E; [|discriminate].
    apply Ascii.eqb_eq in E; subst b.
    intros H; f_equal; auto.
Qed.

Lemma consumed_app (l s : str) : consumed (l ++ s) s = l.
Proof.
  unfold consumed. rewrite length_app.
  replace (List.length l + List.length s - List.length s)%nat
    with (List.length l + 0)%nat by lia.
  rewrite firstn_app_2. simpl. apply app_nil_r.
Qed.

Lemma star_greedy cls (ds s : str) k g :
  forallb cls ds = true -> stops cls s -> k s = Some g ->
  star cls (ds ++ s) k = Some g.
Proof.
  intros Hds Hs Hk. induction ds as [|d ds IH]; simpl in *.
  - destruct s as [|c s]; simpl in *; [assumption|]. now rewrite Hs.
  - apply andb_prop in Hds as [-> Hds]. now rewrite IH.
Qed.

Lemma star_sound cls (s : str) k g :
  star cls s k = Some g ->
  exists l s', s = l ++ s' /\ forallb cls l = true /\ k s' = Some g.
Proof.
  induction s as [|c s IH]; simpl; intros H.
  - exists [], []. auto.
  - destruct (cls c) eqn:Hc.
    + destruct (star cls s k) as [g0|] eqn:E.
      * injection H as ->. destruct (IH eq_refl) as (l & s' & -> & Hl & Hk).
        exists (c :: l), s'. simpl. rewrite Hc. auto.
      * exists [], (c :: s). auto.
    + exists [], (c :: s). auto.
Qed.

Lemma exec_Chars l s g k : exec (Chars l) (l ++ s) g k = k s g.
Proof. simpl. now rewrite strip_prefix_app. Qed.

Lemma exec_Chars_mismatch a l b s g k :
  a <> b -> exec (Chars (a :: l)) (b :: s) g k = None.
Proof.
  intros Hab. simpl. destruct (Ascii.eqb a b) eqn:E; [|reflexivity].
  apply Ascii.eqb_eq in E. contradiction.
Qed.

Lemma exec_Plus_greedy cls (ds s : str) g k g' :
  ds <> [] -> forallb cls ds = true -> stops cls s -> k s g = Some g' ->
  exec (Plus cls) (ds ++ s) g k = Some g'.
Proof.
  intros Hne Hds Hs Hk. destruct ds as [|d ds]; [contradiction|].
  simpl in *. apply andb_prop in Hds as [-> Hds].
  now apply star_greedy.
Qed.

Lemma exec_Star_greedy cls (ds s : str) g k g' :
  forallb cls ds = true -> stops cls s -> k s g = Some g' ->
  exec (Star cls) (ds ++ s) g k = Some g'.
Proof. intros. simpl. now apply star_greedy. Qed.

Lemma exec_Opt_taken r s g k g' :
  exec r s g k = Some g' -> exec (Opt r) s g k = Some g'.
Proof. simpl. now intros ->. Qed.

Lemma exec_Opt_skipped r s g k :
  exec r s g k = None -> exec (Opt r) s g k = k s g.
Proof. simpl. now intros ->. Qed.

Lemma Matches_suffix r s s' g g' :
  Matches r s s' g g' -> exists l, s = l ++ s'.
Proof.
  intros H.
  induction H as [l s g|cls l s g Hne Hl|cls l s g Hl|r s s' g g' HM IH|r s g
                  |r1 r2 s s1 s2 g g1 g2 HM1 IH1 HM2 IH2|name r s s' g g' HM IH|g].
  - now exists l.
  - now exists l.
  - now exists l.
  - assumption.
  - now exists [].
  - destruct IH1 as [l1 ->], IH2 as [l2 ->].
    exists (l1 ++ l2). now rewrite app_assoc.
  - assumption.
  - now exists [].
Qed.

(** Whatever the matcher finds is a match of the pattern. *)
Lemma exec_sound r : forall s g k g',
  exec r s g k = Some g' ->
  exists s' g1, Matches r s s' g g1 /\ k s' g1 = Some g'.
Proof.
  induction r as [l|cls|cls|r IH|r1 IH1 r2 IH2|name r IH|]; intros s g k g' H; simpl in H.
  - destruct (strip_prefix l s) as [s'|] eqn:E; [|discriminate].
    apply strip_prefix_sound in E; subst s.
    exists s', g. split; [constructor|assumption].
  - destruct s as [|c s]; [discriminate|].
    destruct (cls c) eqn:Hc; [|discriminate].
    apply star_sound in H as (l & s' & -> & Hl & Hk).
    exists s', g. split; [|assumption].
    apply (MPlus cls (c :: l)); [discriminate|]. simpl. now rewrite Hc.
  - apply star_sound in H as (l & s' & -> & Hl & Hk).
    exists s', g. split; [now constructor|assumption].
  - destruct (exec r s g k) as [g0|] eqn:E.
    + injection H as ->. apply IH in E as (s' & g1 & HM & Hk).
      exists s', g1. split; [now apply MOptSome|assumption].
    + exists s, g. split; [apply MOptNone|assumption].
  - apply IH1 in H as (s1 & g1 & HM1 & H).
    apply IH2 in H as (s2 & g2 & HM2 & H).
    exists s2, g2. split; [econstructor; eassumption|assumption].
  - apply IH in H as (s' & g1 & HM & H).
    exists s', ((name, consumed s s') :: g1). split; [now constructor|assumption].
  - destruct s; [|discriminate]. exists [], g. split; [constructor|assumption].
Qed.

(** A successful search matched some suffix of the text. *)
Lemma search_sound r s g :
  search r s = Some g ->
  exists pre s0 rest, s = pre ++ s0 /\ Matches r s0 rest [] g.
Proof.
  induction s as [|c s IH]; simpl.
  - destruct (match_here r []) as [g0|] eqn:E; [|discriminate].
    intros [= ->]. apply exec_sound in E as (s' & g1 & HM & [= ->]).
    exists [], [], s'. auto.
  - destruct (match_here r (c :: s)) as [g0|] eqn:E.
    + intros [= ->]. apply exec_sound in E as (s' & g1 & HM & [= ->]).
      exists [], (c :: s), s'. auto.
    + intros H. destruct (IH H) as (pre & s0 & rest & -> & HM).
      exists (c :: pre), s0, rest. auto.
Qed.

Lemma search_here r s g : match_here r s = Some g -> search r s = Some g.
Proof. intros H. destruct s; simpl; now rewrite H. Qed.

End ReFacts.

(* ================================================================== *)
(** * Facts about [int], [float] and the fields of the grammar *)
(* ================================================================== *)

Module FieldFacts.
Import Py Grammar.

Lemma split_sign_digit c t :
  is_digit c = true -> split_sign (c :: t) = (false, c :: t).
Proof.
  destruct c as [[] [] [] [] [] [] [] []]; vm_compute; intros; congruence.
Qed.

Lemma digit_not_dot c : is_digit c = true -> Ascii.eqb c "."%char = false.
Proof.
  destruct c as [[] [] [] [] [] [] [] []]; vm_compute; intros; congruence.
Qed.

Lemma digits_value_from_nonneg ds : forall acc,
  (0 <= acc)%Z ->
  (0 <= fold_left (fun a c => 10 * a + digit_value c) ds acc)%Z.
Proof.
  induction ds as [|d ds IH]; intros acc Hacc; cbn [fold_left]; [assumption|].
  apply IH. unfold digit_value. lia.
Qed.

Lemma digits_value_nonneg ds : (0 <= digits_value ds)%Z.
Proof. apply digits_value_from_nonneg. lia. Qed.

Lemma int_text_cons t :
  int_text t = true ->
  exists d t', t = d :: t' /\ is_digit d = true /\ all_digits t' = true.
Proof.
  destruct t as [|d t']; [discriminate|]. simpl.
  intros H. apply andb_prop in H as [Hd Ht]. eauto.
Qed.

Lemma int_text_all_digits t : int_text t = true -> all_digits t = true.
Proof. destruct t; [discriminate|auto]. Qed.

Lemma int_text_nonempty t : int_text t = true -> t <> [].
Proof. destruct t; [discriminate|discriminate]. Qed.

Lemma int_text_intro t : t <> [] -> all_digits t = true -> int_text t = true.
Proof. destruct t; [contradiction|auto]. Qed.

(** [int] on an integer field is its decimal value. *)
Lemma int_int_text t : int_text t = true -> int t = Return (digits_value t).
Proof.
  intros H. destruct (int_text_cons t H) as (d & t' & -> & Hd & Ht).
  pose proof (int_text_all_digits _ H) as Ha.
  unfold int. rewrite (split_sign_digit d t' Hd).
  cbv beta iota zeta. now rewrite Ha.
Qed.

Lemma split_dot_digits s : all_digits s = true -> split_dot s = (s, None).
Proof.
  induction s as [|c s IH]; simpl; [reflexivity|].
  intros H. apply andb_prop in H as [Hc Hs].
  now rewrite (digit_not_dot c Hc), (IH Hs).
Qed.

Lemma split_dot_point ip fp :
  all_digits ip = true -> split_dot (ip ++ "."%char :: fp) = (ip, Some fp).
Proof.
  induction ip as [|c ip IH]; simpl; [reflexivity|].
  intros H. apply andb_prop in H as [Hc Hs].
  now rewrite (digit_not_dot c Hc), (IH Hs).
Qed.

Lemma split_dot_sound s : forall ip fp,
  split_dot s = (ip, fp) ->
  s = ip ++ match fp with Some f => "."%char :: f | None => [] end.
Proof.
  induction s as [|c s IH]; simpl; intros ip fp.
  - intros [= <- <-]. reflexivity.
  - destruct (Ascii.eqb c ".") eqn:E.
    + apply Ascii.eqb_eq in E; subst c. intros [= <- <-]. reflexivity.
    + destruct (split_dot s) as [i f]. intros [= <- <-].
      simpl. f_equal. now apply IH.
Qed.

(** The shape of a decimal field. *)
Lemma float_text_shape f :
  float_text f = true ->
  exists ip tail,
    f = ip ++ tail /\ int_text ip = true /\
    (tail = [] \/ exists fp, tail = "."%char :: fp /\ all_digits fp = true).
Proof.
  unfold float_text. destruct (split_dot f) as [ip fp] eqn:E.
  intros H. apply andb_prop in H as [Hip Hfp].
  apply split_dot_sound in E. exists ip. destruct fp as [fp|].
  - exists ("."%char :: fp). repeat split; auto. right. exists fp. auto.
  - exists []. auto.
Qed.

Lemma float_text_digits ip : int_text ip = true -> float_text ip = true.
Proof.
  intros H. unfold float_text.
  rewrite (split_dot_digits ip (int_text_all_digits ip H)).
  now rewrite H.
Qed.

Lemma float_text_point ip fp :
  int_text ip = true -> all_digits fp = true ->
  float_text (ip ++ "."%char :: fp) = true.
Proof.
  intros Hip Hfp. unfold float_text.
  rewrite (split_dot_point ip fp (int_text_all_digits ip Hip)).
  now rewrite Hip, Hfp.
Qed.

Lemma float_text_cons f :
  float_text f = true -> exists d f', f = d :: f' /\ is_digit d = true.
Proof.
  intros H. destruct (float_text_shape f H) as (ip & tail & -> & Hip & _).
  destruct (int_text_cons ip Hip) as (d & t' & -> & Hd & _).
  exists d, (t' ++ tail). auto.
Qed.

(** [float] on a decimal field is its decimal value. *)
Lemma float_float_text f :
  float_text f = true -> float f = Return (decimal_value f).
Proof.
  intros H. destruct (float_text_cons f H) as (d & f' & -> & Hd).
  unfold float, decimal_value. rewrite (split_sign_digit d f' Hd).
  unfold float_text in H.
  destruct (split_dot (d :: f')) as [ip fp].
  apply andb_prop in H as [Hip Hfp].
  destruct (int_text_cons ip Hip) as (c & ip' & -> & Hc & Hip').
  simpl. rewrite Hc. simpl.
  assert (Hall : all_digits (ip' ++ match fp with Some f => f | None => [] end) = true).
  { unfold all_digits. rewrite forallb_app. fold (all_digits ip'). rewrite Hip'.
    destruct fp; auto. }
  match goal with
  | |- (if ?b then _ else _) = _ => replace b with true by (symmetry; exact Hall)
  end.
  reflexivity.
Qed.

Lemma decimal_value_nonneg f : 0 <= decimal_value f.
Proof.
  unfold decimal_value. destruct (split_dot f) as [ip fp].
  unfold Qle. simpl. rewrite Z.mul_1_r. apply digits_value_nonneg.
Qed.

End FieldFacts.

(* ================================================================== *)
(** * Facts about [PingResults] *)
(* ================================================================== *)

Module ParserFacts.
Import Py Re Re.Notations Parser Grammar ReFacts FieldFacts.
Local Open Scope re_scope.

Lemma exec_Seq r1 r2 s g k :
  exec (r1 +++ r2) s g k = exec r1 s g (fun s' g' => exec r2 s' g' k).
Proof. reflexivity. Qed.

Lemma exec_Group name r s g k :
  exec (Group name r) s g k
  = exec r s g (fun s' g' => k s' ((name, consumed s s') :: g')).
Proof. reflexivity. Qed.

Lemma stops_float_digit s : stops_float s -> stops is_digit s.
Proof. destruct s; simpl; tauto. Qed.

Lemma strip_point_stops s : stops_float s -> strip_prefix (lit ".") s = None.
Proof.
  destruct s as [|c s]; [reflexivity|]. intros [_ Hdot].
  change (strip_prefix (lit ".") (c :: s))
    with (if Ascii.eqb "." c then strip_prefix [] s else None).
  destruct (Ascii.eqb "." c) eqn:E; [|reflexivity].
  apply Ascii.eqb_eq in E. congruence.
Qed.

(** ** The matcher on the fields of the grammar *)

Lemma exec_INT t s g k g' :
  int_text t = true -> stops is_digit s -> k s g = Some g' ->
  exec INT (t ++ s) g k = Some g'.
Proof.
  intros Ht Hs Hk. apply exec_Plus_greedy; auto.
  - now apply int_text_nonempty.
  - now apply int_text_all_digits.
Qed.

Lemma exec_FLOAT f s g k g' :
  float_text f = true -> stops_float s -> k s g = Some g' ->
  exec FLOAT (f ++ s) g k = Some g'.
Proof.
  intros Hf Hs Hk.
  destruct (float_text_shape f Hf) as (ip & tail & -> & Hip & Htail).
  unfold FLOAT. rewrite exec_Seq, <- app_assoc.
  destruct Htail as [->|(fp & -> & Hfp)].
  - apply exec_Plus_greedy.
    + now apply int_text_nonempty.
    + now apply int_text_all_digits.
    + now apply stops_float_digit.
    + rewrite exec_Seq. cbn [app exec].
      rewrite (strip_point_stops s Hs).
      apply (star_greedy is_digit [] s); auto.
      now apply stops_float_digit.
  - apply exec_Plus_greedy.
    + now apply int_text_nonempty.
    + now apply int_text_all_digits.
    + reflexivity.
    + rewrite exec_Seq. apply exec_Opt_taken.
      change (("."%char :: fp) ++ s) with (lit "." ++ fp ++ s).
      rewrite exec_Chars. apply exec_Star_greedy; auto.
      now apply stops_float_digit.
Qed.

Lemma exec_Group_INT name t s g k g' :
  int_text t = true -> stops is_digit s -> k s ((name, t) :: g) = Some g' ->
  exec (Group name INT) (t ++ s) g k = Some g'.
Proof.
  intros Ht Hs Hk. rewrite exec_Group. apply exec_INT; auto.
  now rewrite consumed_app.
Qed.

Lemma exec_Group_FLOAT name f s g k g' :
  float_text f = true -> stops_float s -> k s ((name, f) :: g) = Some g' ->
  exec (Group name FLOAT) (f ++ s) g k = Some g'.
Proof.
  intros Hf Hs Hk. rewrite exec_Group. apply exec_FLOAT; auto.
  now rewrite consumed_app.
Qed.

Ltac seq := cbv beta; repeat rewrite exec_Seq.
Ltac chars := seq; rewrite exec_Chars.
Ltac stop_digit := exact eq_refl.
Ltac stop_float := split; [exact eq_refl | discriminate].

Lemma plus_sign_skipped r f s g k :
  float_text f = true -> exec (Chars (lit "+") +++ r) (f ++ s) g k = None.
Proof.
  intros Hf. destruct (float_text_cons f Hf) as (d & f' & -> & Hd).
  rewrite exec_Seq. apply exec_Chars_mismatch.
  intros <-. discriminate.
Qed.

(** The groups of the statistics line, most recent first. *)
Lemma exec_STATS_LINE st s g k g' :
  stats_ok st = true ->
  k s (("packet_loss", s_loss st) :: ("received", s_received st)
       :: ("transmitted", s_transmitted st) :: g) = Some g' ->
  exec STATS_LINE (stats_line st ++ [nl] ++ s) g k = Some g'.
Proof.
  destruct st as [t r errs loss time]. unfold stats_ok, stats_line. cbn [s_transmitted s_received s_errors s_loss s_time].
  intros Hok Hk.
  apply andb_prop in Hok as [Hok Htime]. apply andb_prop in Hok as [Hok Hloss].
  apply andb_prop in Hok as [Hok Herrs]. apply andb_prop in Hok as [Ht Hr].
  unfold STATS_LINE. repeat rewrite <- app_assoc.
  seq. apply exec_Group_INT; [assumption|stop_digit|].
  chars. seq. apply exec_Group_INT; [assumption|stop_digit|].
  chars. seq.
  assert (Htail : forall g0,
    k s (("packet_loss", loss) :: g0) = Some g' ->
    exec (Group "packet_loss" FLOAT)
      (loss ++ lit "% packet loss, time " ++ time ++ lit "ms" ++ [nl] ++ s) g0
      (fun s' g1 =>
         exec (Chars (lit "% packet loss, time ")) s' g1
           (fun s'0 g'0 =>
              exec FLOAT s'0 g'0
                (fun s'1 g'1 =>
                   exec (Chars (lit "ms")) s'1 g'1
                     (fun s'2 g'2 => exec (Chars [nl]) s'2 g'2 k)))) = Some g').
  { intros g0 Hk0.
    apply exec_Group_FLOAT; [assumption|stop_float|].
    chars. apply exec_FLOAT; [assumption|stop_float|].
    chars. cbv beta. rewrite exec_Chars. exact Hk0. }
  destruct errs as [n|].
  - repeat rewrite <- app_assoc. apply exec_Opt_taken.
    chars. seq. apply exec_INT; [assumption|stop_digit|].
    chars. seq. now apply Htail.
  - cbn [app]. rewrite exec_Opt_skipped by now apply plus_sign_skipped.
    seq. now apply Htail.
Qed.

(** The groups of the RTT line, most recent first. *)
Lemma exec_RTT_LINE rt s g k g' :
  rtt_ok rt = true ->
  k s (("mdev", r_mdev rt) :: ("max", r_max rt) :: ("avg", r_avg rt)
       :: ("min", r_min rt) :: g) = Some g' ->
  exec RTT_LINE (rtt_line rt ++ s) g k = Some g'.
Proof.
  destruct rt as [a b c d]. unfold rtt_ok, rtt_line. cbn [r_min r_avg r_max r_mdev].
  intros Hok Hk.
  apply andb_prop in Hok as [Hok Hd]. apply andb_prop in Hok as [Hok Hc].
  apply andb_prop in Hok as [Ha Hb].
  unfold RTT_LINE. repeat rewrite <- app_assoc.
  chars. seq. apply exec_Group_FLOAT; [assumption|stop_float|].
  chars. seq. apply exec_Group_FLOAT; [assumption|stop_float|].
  chars. seq. apply exec_Group_FLOAT; [assumption|stop_float|].
  chars. seq. apply exec_Group_FLOAT; [assumption|stop_float|].
  cbv beta. rewrite exec_Chars. exact Hk.
Qed.

(** The pattern matches a text of the grammar from its first character,
    and the groups are its fields. *)
Lemma match_here_text st rt :
  fields_ok st rt = true ->
  match_here PING_RESULTS_REGEX (text st rt) = Some (groups_of st rt).
Proof.
  unfold fields_ok. intros Hok. apply andb_prop in Hok as [Hst Hrt].
  unfold match_here, PING_RESULTS_REGEX, text.
  rewrite exec_Seq. apply exec_STATS_LINE; [assumption|].
  seq. destruct rt as [r|].
  - apply exec_Opt_taken. apply exec_RTT_LINE; [assumption|].
    reflexivity.
  - rewrite exec_Opt_skipped by reflexivity.
    reflexivity.
Qed.

(** ** From a match back to the fields *)

Ltac inv H := inversion H; subst; clear H.

Lemma Matches_INT_inv s s' g g' :
  Matches INT s s' g g' ->
  g' = g /\ exists t, int_text t = true /\ s = t ++ s'.
Proof.
  unfold INT. intros H. inv H. split; [reflexivity|].
  exists l. split; [now apply int_text_intro|reflexivity].
Qed.

Lemma Matches_FLOAT_inv s s' g g' :
  Matches FLOAT s s' g g' ->
  g' = g /\ exists f, float_text f = true /\ s = f ++ s'.
Proof.
  unfold FLOAT. intros H. inv H.
  match goal with H : Matches (Plus _) _ _ _ _ |- _ => inv H end.
  match goal with H : Matches (Seq _ _) _ _ _ _ |- _ => inv H end.
  match goal with H : Matches (Star _) _ _ _ _ |- _ => inv H end.
  match goal with H : Matches (Opt _) _ _ _ _ |- _ => inv H end.
  - match goal with H : Matches (Chars _) _ _ _ _ |- _ => inv H end.
    split; [reflexivity|].
    exists (l ++ "."%char :: l0). split.
    + apply float_text_point; [now apply int_text_intro|assumption].
    + now rewrite <- app_assoc.
  - split; [reflexivity|].
    exists (l ++ l0). split.
    + apply float_text_digits. apply int_text_intro.
      * destruct l; [contradiction|discriminate].
      * unfold all_digits. rewrite forallb_app. now apply andb_true_intro.
    + now rewrite <- app_assoc.
Qed.

Ltac inv_matches :=
  repeat match goal with
  | H : Matches (Seq _ _) _ _ _ _ |- _ => inv H
  | H : Matches (Chars _) _ _ _ _ |- _ => inv H
  | H : Matches (Group _ _) _ _ _ _ |- _ => inv H
  | H : Matches EndZ _ _ _ _ |- _ => inv H
  | H : Matches INT _ _ _ _ |- _ =>
      apply Matches_INT_inv in H; destruct H as (-> & ? & ? & ->)
  | H : Matches FLOAT _ _ _ _ |- _ =>
      apply Matches_FLOAT_inv in H; destruct H as (-> & ? & ? & ->)
  end.

Lemma Matches_STATS_LINE_inv s s' g g' :
  Matches STATS_LINE s s' g g' ->
  exists st,
    stats_ok st = true /\ s = stats_line st ++ [nl] ++ s' /\
    g' = ("packet_loss", s_loss st) :: ("received", s_received st)
         :: ("transmitted", s_transmitted st) :: g.
Proof.
  unfold STATS_LINE. intros H.
  inv H. inv_matches.
  match goal with H : Matches (Opt _) _ _ _ _ |- _ => inv H end; inv_matches.
  - eexists {| s_transmitted := _; s_received := _; s_errors := Some _;
               s_loss := _; s_time := _ |}.
    unfold stats_ok, stats_line.
    cbn [s_transmitted s_received s_errors s_loss s_time].
    repeat rewrite consumed_app.
    split; [|split].
    3: reflexivity.
    2: repeat rewrite <- app_assoc; reflexivity.
    repeat (apply andb_true_intro; split); assumption.
  - eexists {| s_transmitted := _; s_received := _; s_errors := None;
               s_loss := _; s_time := _ |}.
    unfold stats_ok, stats_line.
    cbn [s_transmitted s_received s_errors s_loss s_time].
    repeat rewrite consumed_app.
    split; [|split].
    3: reflexivity.
    2: repeat rewrite <- app_assoc; reflexivity.
    repeat (apply andb_true_intro; split); auto.
Qed.

Lemma Matches_RTT_LINE_inv s s' g g' :
  Matches RTT_LINE s s' g g' ->
  exists rt,
    rtt_ok rt = true /\ s = rtt_line rt ++ s' /\
    g' = ("mdev", r_mdev rt) :: ("max", r_max rt) :: ("avg", r_avg rt)
         :: ("min", r_min rt) :: g.
Proof.
  unfold RTT_LINE. intros H. inv H. inv_matches.
  eexists {| r_min := _; r_avg := _; r_max := _; r_mdev := _ |}.
  unfold rtt_ok, rtt_line. cbn [r_min r_avg r_max r_mdev].
  repeat rewrite consumed_app.
  split; [|split].
  3: reflexivity.
  2: repeat rewrite <- app_assoc; reflexivity.
  repeat (apply andb_true_intro; split); assumption.
Qed.

(** A match of the pattern runs to the end of the text, over a text of
    the grammar, and its groups are the fields of that text. *)
Lemma Matches_PING_RESULTS_REGEX_inv s s' g :
  Matches PING_RESULTS_REGEX s s' [] g ->
  s' = [] /\
  exists st rt, fields_ok st rt = true /\ s = text st rt /\ g = groups_of st rt.
Proof.
  unfold PING_RESULTS_REGEX. intros H. inv H.
  match goal with H : Matches STATS_LINE _ _ _ _ |- _ =>
    apply Matches_STATS_LINE_inv in H; destruct H as (st & Hst & -> & ->)
  end.
  match goal with H : Matches (Seq _ _) _ _ _ _ |- _ => inv H end.
  match goal with H : Matches (Seq _ _) _ _ _ _ |- _ => inv H end.
  match goal with H : Matches EndZ _ _ _ _ |- _ => inv H end.
  match goal with H : Matches (Chars _) _ _ _ _ |- _ => inv H end.
  split; [reflexivity|]. exists st.
  match goal with H : Matches (Opt _) _ _ _ _ |- _ => inv H end.
  - match goal with H : Matches RTT_LINE _ _ _ _ |- _ =>
      apply Matches_RTT_LINE_inv in H; destruct H as (rt & Hrt & -> & ->)
    end.
    exists (Some rt). unfold fields_ok, text. rewrite Hst, Hrt.
    split; [reflexivity|]. split; [|reflexivity].
    now rewrite app_nil_r.
  - exists None. unfold fields_ok, text. rewrite Hst.
    split; [reflexivity|]. split; reflexivity.
Qed.

(** ** [search] and [__init__] *)

Lemma search_inv output g :
  search PING_RESULTS_REGEX output = Some g ->
  exists pre st rt,
    fields_ok st rt = true /\ output = pre ++ text st rt /\ g = groups_of st rt.
Proof.
  intros H. apply search_sound in H as (pre & s0 & rest & -> & HM).
  apply Matches_PING_RESULTS_REGEX_inv in HM as (_ & st & rt & Hok & -> & ->).
  exists pre, st, rt. auto.
Qed.

Lemma search_found r pre s g :
  match_here r s = Some g -> exists g', search r (pre ++ s) = Some g'.
Proof.
  intros H. induction pre as [|c pre IH]; simpl.
  - exists g. now apply search_here.
  - destruct (match_here r (c :: pre ++ s)) as [g0|]; [now exists g0|assumption].
Qed.

Lemma init_of_groups output st rt :
  fields_ok st rt = true ->
  search PING_RESULTS_REGEX output = Some (groups_of st rt) ->
  __init__ output = Return (denoted st rt).
Proof.
  unfold fields_ok, stats_ok. intros Hok Hs.
  apply andb_prop in Hok as [Hok Hrt].
  apply andb_prop in Hok as [Hok Htime]. apply andb_prop in Hok as [Hok Hloss].
  apply andb_prop in Hok as [Hok Herrs]. apply andb_prop in Hok as [Ht Hr].
  unfold __init__. rewrite Hs. unfold int_group, float_group, denoted.
  destruct rt as [[a b c d]|]; cbn [r_min r_avg r_max r_mdev] in *.
  - unfold rtt_ok in Hrt. cbn [r_min r_avg r_max r_mdev] in Hrt.
    apply andb_prop in Hrt as [Hrt Hd]. apply andb_prop in Hrt as [Hrt Hc].
    apply andb_prop in Hrt as [Ha Hb].
    cbn. rewrite (int_int_text _ Ht), (int_int_text _ Hr).
    rewrite (float_float_text _ Hloss), (float_float_text _ Ha),
      (float_float_text _ Hb), (float_float_text _ Hc), (float_float_text _ Hd).
    reflexivity.
  - cbn. rewrite (int_int_text _ Ht), (int_int_text _ Hr).
    rewrite (float_float_text _ Hloss). reflexivity.
Qed.

(** Every constructed result is the one denoted by a text of the grammar
    that ends the output. *)
Lemma init_Return_inv output r :
  __init__ output = Return r ->
  exists pre st rt,
    fields_ok st rt = true /\ output = pre ++ text st rt /\ r = denoted st rt.
Proof.
  intros H. destruct (search PING_RESULTS_REGEX output) as [g|] eqn:E.
  - destruct (search_inv _ _ E) as (pre & st & rt & Hok & Hout & ->).
    rewrite (init_of_groups _ _ _ Hok E) in H. injection H as <-.
    exists pre, st, rt. auto.
  - unfold __init__ in H. rewrite E in H. discriminate.
Qed.

(** The constructor succeeds whenever the output ends with a text of the
    grammar. *)
Lemma init_succeeds pre st rt :
  fields_ok st rt = true -> exists r, __init__ (pre ++ text st rt) = Return r.
Proof.
  intros Hok.
  destruct (search_found _ pre _ _ (match_here_text st rt Hok)) as [g Hg].
  destruct (search_inv _ _ Hg) as (pre' & st' & rt' & Hok' & Hout & ->).
  exists (denoted st' rt'). now apply init_of_groups.
Qed.

Lemma text_last st rt : last (text st rt) " "%char = nl.
Proof.
  unfold text. repeat rewrite app_assoc. apply last_last.
Qed.

Lemma text_nonempty st rt : text st rt <> [].
Proof.
  unfold text. repeat rewrite app_assoc. intros H.
  now apply app_eq_nil in H as [_ H].
Qed.

(** A text whose last character is not a newline has no part in the
    grammar. *)
Lemma no_match_last output : last output " "%char <> nl -> no_match output.
Proof.
  intros Hlast pre s -> (st & rt & _ & ->). apply Hlast.
  destruct (exists_last (text_nonempty st rt)) as (u & c & E).
  pose proof (text_last st rt) as Hl. rewrite E in *.
  rewrite last_last in Hl. subst c.
  rewrite app_assoc. apply last_last.
Qed.

(** The constructor raises nothing but [RuntimeError('\n' + output)]. *)
Lemma init_Raise_inv output e :
  __init__ output = Raise e -> e = RuntimeError (nl :: output) None.
Proof.
  intros He. destruct (search PING_RESULTS_REGEX output) as [g|] eqn:E.
  - destruct (search_inv _ _ E) as (pre & st & rt & Hok & Hout & ->).
    rewrite (init_of_groups _ _ _ Hok E) in He. discriminate.
  - unfold __init__ in He. rewrite E in He. now injection He as <-.
Qed.

Lemma init_Raise_no_match output e : __init__ output = Raise e -> no_match output.
Proof.
  intros He pre s -> (st & rt & Hok & ->).
  destruct (init_succeeds pre st rt Hok) as [r Hr]. congruence.
Qed.

Lemma no_match_init output :
  no_match output -> __init__ output = Raise (RuntimeError (nl :: output) None).
Proof.
  intros Hno. destruct (__init__ output) as [r|e] eqn:E.
  - destruct (init_Return_inv _ _ E) as (pre & st & rt & Hok & Hout & _).
    exfalso. apply (Hno pre (text st rt) Hout). now exists st, rt.
  - now rewrite (init_Raise_inv _ _ E).
Qed.

(** ** Output with lines before the statistics line *)

Lemma occ_app c s t : occ c (s ++ t) = (occ c s + occ c t)%nat.
Proof.
  induction s as [|x s IH]; [reflexivity|].
  cbn [occ app]. rewrite IH. lia.
Qed.

Lemma occ_digits c s : is_digit c = false -> all_digits s = true -> occ c s = 0%nat.
Proof.
  intros Hc. induction s as [|x s IH]; [reflexivity|].
  cbn [occ all_digits forallb].
  intros H. apply andb_prop in H as [Hx Hs]. fold (all_digits s) in Hs.
  rewrite (IH Hs).
  destruct (Ascii.eqb x c) eqn:E; [|reflexivity].
  apply Ascii.eqb_eq in E. congruence.
Qed.

Lemma occ_int c t : is_digit c = false -> int_text t = true -> occ c t = 0%nat.
Proof. intros Hc Ht. apply occ_digits; [assumption|now apply int_text_all_digits]. Qed.

Lemma occ_float c f :
  is_digit c = false -> c <> "."%char -> float_text f = true -> occ c f = 0%nat.
Proof.
  intros Hc Hdot Hf.
  destruct (float_text_shape f Hf) as (ip & tail & -> & Hip & Htail).
  rewrite occ_app, (occ_int c ip Hc Hip).
  destruct Htail as [->|(fp & -> & Hfp)]; [reflexivity|].
  cbn [occ]. rewrite (occ_digits c fp Hc Hfp).
  destruct (Ascii.eqb "." c) eqn:E; [|reflexivity].
  apply Ascii.eqb_eq in E. congruence.
Qed.

(** The letter [k] occurs twice in a text of the grammar: in [packets]
    and in [packet loss]. *)
Lemma occ_k_text st rt : fields_ok st rt = true -> occ "k" (text st rt) = 2%nat.
Proof.
  destruct st as [t r errs loss time].
  unfold fields_ok, stats_ok. cbn [s_transmitted s_received s_errors s_loss s_time].
  intros Hok.
  apply andb_prop in Hok as [Hok Hrt].
  apply andb_prop in Hok as [Hok Htime]. apply andb_prop in Hok as [Hok Hloss].
  apply andb_prop in Hok as [Hok Herrs]. apply andb_prop in Hok as [Ht Hr].
  assert (Hk : is_digit "k" = false) by reflexivity.
  assert (Hd : "k"%char <> "."%char) by discriminate.
  destruct rt as [[a b c d]|].
  - unfold rtt_ok in Hrt. cbn [r_min r_avg r_max r_mdev] in Hrt.
    apply andb_prop in Hrt as [Hrt H4]. apply andb_prop in Hrt as [Hrt H3].
    apply andb_prop in Hrt as [H1 H2].
    destruct errs as [n|];
      unfold text, stats_line, rtt_line;
      cbn [s_transmitted s_received s_errors s_loss s_time r_min r_avg r_max r_mdev];
      repeat rewrite occ_app;
      repeat match goal with
      | H : int_text ?x = true |- context [occ "k" ?x] => rewrite (occ_int "k" x Hk H)
      | H : float_text ?x = true |- context [occ "k" ?x] =>
          rewrite (occ_float "k" x Hk Hd H)
      end;
      reflexivity.
  - destruct errs as [n|];
      unfold text, stats_line;
      cbn [s_transmitted s_received s_errors s_loss s_time];
      repeat rewrite occ_app;
      repeat match goal with
      | H : int_text ?x = true |- context [occ "k" ?x] => rewrite (occ_int "k" x Hk H)
      | H : float_text ?x = true |- context [occ "k" ?x] =>
          rewrite (occ_float "k" x Hk Hd H)
      end;
      reflexivity.
Qed.

Lemma prefix_before_first c (x : str) : forall y a b,
  occ c x = 0%nat -> x ++ y = a ++ c :: b -> exists a', a = x ++ a'.
Proof.
  induction x as [|h x IH]; intros y a b Hx E.
  - now exists a.
  - simpl in Hx. destruct (Ascii.eqb h c) eqn:Ehc; [discriminate|].
    destruct a as [|h' a]; simpl in E.
    + injection E as -> _. now rewrite Ascii.eqb_refl in Ehc.
    + injection E as -> E. destruct (IH y a b Hx E) as [a' ->]. now exists a'.
Qed.

Lemma text_starts_with_digit st rt :
  fields_ok st rt = true ->
  exists d rest, text st rt = d :: rest /\ is_digit d = true.
Proof.
  unfold fields_ok, stats_ok. intros Hok.
  apply andb_prop in Hok as [Hok _]. apply andb_prop in Hok as [Hok _].
  apply andb_prop in Hok as [Hok _]. apply andb_prop in Hok as [Hok _].
  apply andb_prop in Hok as [Ht _].
  destruct (int_text_cons _ Ht) as (d & t' & E & Hd & _).
  unfold text, stats_line. rewrite E. simpl. eauto.
Qed.

Lemma all_digits_app_l (x l : str) : all_digits (x ++ l) = true -> all_digits x = true.
Proof.
  unfold all_digits. rewrite forallb_app. intros H.
  now apply andb_prop in H as [H _].
Qed.

(** A text of the grammar that ends with another one is longer by digits
    only. *)
Lemma longer_text_digits st rt st' rt' x :
  fields_ok st rt = true -> fields_ok st' rt' = true ->
  text st' rt' = x ++ text st rt -> all_digits x = true.
Proof.
  intros Hok Hok' E.
  assert (Hx : occ "k" x = 0%nat).
  { pose proof (occ_k_text st' rt' Hok') as H'. rewrite E, occ_app in H'.
    rewrite (occ_k_text st rt Hok) in H'. lia. }
  assert (Ht' : int_text (s_transmitted st') = true).
  { unfold fields_ok, stats_ok in Hok'.
    apply andb_prop in Hok' as [Hok' _]. apply andb_prop in Hok' as [Hok' _].
    apply andb_prop in Hok' as [Hok' _]. apply andb_prop in Hok' as [Hok' _].
    now apply andb_prop in Hok' as [Hok' _]. }
  assert (Es : exists b,
    text st' rt' = (s_transmitted st' ++ lit " pac") ++ "k"%char :: b).
  { unfold text, stats_line. eexists. repeat rewrite <- app_assoc. reflexivity. }
  destruct Es as [b Es]. rewrite E in Es.
  destruct (prefix_before_first _ _ _ _ _ Hx Es) as [a' Ea].
  rewrite Ea, <- app_assoc in Es. apply app_inv_head in Es.
  destruct (text_starts_with_digit st rt Hok) as (d & rest & Ed & Hd).
  rewrite Ed in Es.
  apply int_text_all_digits in Ht'.
  apply app_eq_app in Ea as [l [[E1 E2]|[E1 E2]]].
  - rewrite E1 in Ht'. now apply all_digits_app_l in Ht'.
  - destruct l as [|c l].
    + rewrite app_nil_r in E1. now subst x.
    + exfalso.
      destruct a' as [|c1 [|c2 [|c3 [|c4 a']]]];
        repeat (destruct l as [|? l]; try discriminate);
        injection E2; intros; subst;
        injection Es; intros; subst; discriminate.
Qed.

Lemma all_digits_last (l : str) d :
  l <> [] -> all_digits l = true -> is_digit (last l d) = true.
Proof.
  induction l as [|c l IH]; [contradiction|]. intros _ H.
  simpl in H. apply andb_prop in H as [Hc Hl].
  destruct l as [|c' l]; [assumption|].
  change (last (c :: c' :: l) d) with (last (c' :: l) d).
  apply IH; [discriminate|assumption].
Qed.

(** The pattern does not match from inside the header. *)
Lemma match_here_header c pre st rt :
  fields_ok st rt = true -> header (c :: pre) ->
  match_here PING_RESULTS_REGEX ((c :: pre) ++ text st rt) = None.
Proof.
  intros Hok Hh.
  destruct (match_here PING_RESULTS_REGEX ((c :: pre) ++ text st rt)) as [g|] eqn:E;
    [|reflexivity].
  exfalso. apply exec_sound in E as (s' & g1 & HM & _).
  apply Matches_PING_RESULTS_REGEX_inv in HM as (_ & st' & rt' & Hok' & E' & _).
  symmetry in E'. apply (longer_text_digits st rt st' rt') in E'; auto.
  apply (all_digits_last _ " "%char) in E'; [|discriminate].
  unfold header in Hh. congruence.
Qed.

Lemma header_tail c pre : header (c :: pre) -> header pre.
Proof.
  unfold header. destruct pre as [|c' pre]; [reflexivity|].
  now change (last (c :: c' :: pre) " "%char) with (last (c' :: pre) " "%char).
Qed.

Lemma search_after_header pre st rt :
  fields_ok st rt = true -> header pre ->
  search PING_RESULTS_REGEX (pre ++ text st rt) = Some (groups_of st rt).
Proof.
  intros Hok. induction pre as [|c pre IH]; intros Hh.
  - apply search_here. now apply match_here_text.
  - change (search PING_RESULTS_REGEX ((c :: pre) ++ text st rt))
      with (match match_here PING_RESULTS_REGEX ((c :: pre) ++ text st rt) with
            | Some g => Some g
            | None => search PING_RESULTS_REGEX (pre ++ text st rt)
            end).
    rewrite (match_here_header c pre st rt Hok Hh).
    apply IH. now apply header_tail in Hh.
Qed.

(** After any header, the constructor returns what the two lines at the
    end of the output denote. *)
Lemma init_after_header pre st rt :
  fields_ok st rt = true -> header pre ->
  __init__ (pre ++ text st rt) = Return (denoted st rt).
Proof.
  intros Hok Hh. apply init_of_groups; [assumption|].
  now apply search_after_header.
Qed.

Lemma decimal_percent_nonneg f : 0 <= decimal_value f / 100.
Proof.
  apply Qle_shift_div_l; [reflexivity|].
  rewrite Qmult_0_l. apply decimal_value_nonneg.
Qed.

End ParserFacts.

(* ================================================================== *)
(** * Outputs that the parser rejects *)
(* ================================================================== *)

Module RejectedFacts.
Import Py Re Parser Grammar Rejected ReFacts FieldFacts ParserFacts.













End RejectedFacts.

(* ================================================================== *)
(** * Properties of the probe-output parser *)
(* ================================================================== *)

Module ParserProps.
Import Py Re Parser Grammar Samples Rejected.
Import ReFacts FieldFacts ParserFacts RejectedFacts.

(** C6.  On every text of the two-line grammar (a statistics line, then
    the RTT line or nothing, then the end of the text) the constructor
    returns; [transmitted] and [received] are the integers written on the
    statistics line, [packet_loss] is the written percentage divided by
    100, and without an RTT line the four latency fields are [None]; with
    one they are the four numbers written on it. *)
Theorem parse_two_line_text (st : stats) (rt : option rtt) :
  fields_ok st rt = true ->
  exists r,
    __init__ (text st rt) = Return r /\
    transmitted r = digits_value (s_transmitted st) /\
    received r = digits_value (s_received st) /\
    packet_loss r = decimal_value (s_loss st) / 100 /\
    match rt with
    | None => latency_absent r
    | Some l =>
        min r = Some (decimal_value (r_min l)) /\
        avg r = Some (decimal_value (r_avg l)) /\
        max r = Some (decimal_value (r_max l)) /\
        mdev r = Some (decimal_value (r_mdev l))
    end.
Proof.
  intros Hok. exists (denoted st rt). split.
  - apply init_of_groups; [assumption|].
    apply search_here. now apply match_here_text.
  - destruct rt; repeat split; reflexivity.
Qed.

Lemma parse_two_line_text_witness :
  fields_ok all_lost None = true /\
  exists r,
    __init__ (text all_lost None) = Return r /\
    transmitted r = 3%Z /\ received r = 0%Z /\
    packet_loss r = decimal_value (lit "100") / 100 /\
    latency_absent r.
Proof.
  split; [reflexivity|].
  exact (parse_two_line_text all_lost None eq_refl).
Defined.




(** The output of [ping -qc1] for one reply, header included. *)
Example parse_ping_output :
  __init__ (ping_header ++ text one_received (Some one_rtt))
  = Return {| transmitted := 1; received := 1; packet_loss := 0 / 100;
              min := Some (115 # 10); avg := Some (115 # 10);
              max := Some (115 # 10); mdev := Some (0 # 1000) |}.
Proof.
  rewrite init_after_header; reflexivity.
Qed.

(** When a second text of the grammar follows a first one, the output
    ends with a text of the grammar, and that one is parsed. *)
Example parse_last_text :
  __init__ (text all_lost None ++ text one_received (Some one_rtt))
  = Return (denoted one_received (Some one_rtt)).
Proof.
  rewrite init_after_header; reflexivity.
Qed.

(** A text of the grammar with a further line after it is rejected. *)
Example trailing_line_rejected :
  let output := text all_lost None ++ lit "late" ++ [nl] in
  __init__ output = Raise (RuntimeError (nl :: output) None).
Proof. vm_compute. reflexivity. Qed.

(** C8, as stated, fails: the constructor accepts the text
    ["1 packets transmitted, 5 received, 250% packet loss, time 0ms"]
    followed by an empty line. *)
Lemma data_model_invariant_violated :
  exists r,
    __init__ (text inconsistent None) = Return r /\ ~ data_model_invariant r.
Proof.
  eexists. split; [vm_compute; reflexivity|].
  unfold data_model_invariant. cbn [transmitted received].
  intros (_ & H & _). lia.
Qed.

(** C8, amended.  Every constructed result has non-negative counts and a
    non-negative loss fraction, and it is the result denoted by the text
    of the grammar that ends the output: its four latency fields are all
    present when that text has an RTT line and all absent when it has
    none. *)
Theorem parse_result_shape (output : str) (r : PingResults) :
  __init__ output = Return r ->
  (0 <= transmitted r)%Z /\ (0 <= received r)%Z /\ 0 <= packet_loss r /\
  exists pre st rt,
    output = pre ++ text st rt /\ fields_ok st rt = true /\ r = denoted st rt /\
    match rt with
    | Some _ => latency_present r
    | None => latency_absent r
    end.
Proof.
  intros H. destruct (init_Return_inv _ _ H) as (pre & st & rt & Hok & -> & ->).
  split; [apply digits_value_nonneg|].
  split; [apply digits_value_nonneg|].
  split; [apply decimal_percent_nonneg|].
  exists pre, st, rt. repeat split; auto.
  destruct rt; unfold latency_present, latency_absent; cbn; repeat split; discriminate.
Qed.

Lemma parse_result_shape_witness :
  __init__ (text inconsistent None) = Return (denoted inconsistent None) /\
  (0 <= transmitted (denoted inconsistent None))%Z /\
  latency_absent (denoted inconsistent None).
Proof.
  assert (H : __init__ (text inconsistent None) = Return (denoted inconsistent None)).
  { vm_compute. reflexivity. }
  split; [exact H|].
  destruct (parse_result_shape _ _ H) as (Ht & _ & _ & _).
  split; [exact Ht|]. repeat split.
Defined.

End ParserProps.

(* ================================================================== *)
(** * Facts about coroutines and the task *)
(* ================================================================== *)

Module TaskFacts.
Import Py Parser Aio Task ParserFacts.

Section Run.
Variable env : list str -> result completed.

Lemma run_await {A B} (c : coro A) (k : result A -> coro B) :
  run env (await c k) = run env (k (run env c)).
Proof.
  induction c as [r|cmd f IH|f IH|c IH]; simpl; auto.
Qed.

Lemma trace_await {A B} (c : coro A) (k : result A -> coro B) :
  trace env (await c k) = trace env c ++ trace env (k (run env c)).
Proof.
  induction c as [r|cmd f IH|f IH|c IH]; simpl; auto.
  now rewrite IH.
Qed.

Lemma run_async_with {A} cm (body : coro A) :
  run env (async_with cm body) = run env body.
Proof.
  destruct cm; simpl; [|reflexivity]. now rewrite run_await.
Qed.

Lemma trace_async_with {A} cm (body : coro A) :
  trace env (async_with cm body) = trace env body.
Proof.
  destruct cm; simpl; [|reflexivity].
  rewrite trace_await. simpl. apply app_nil_r.
Qed.

Lemma run_handlers {A} msg e :
  run env (@handlers A msg e)
  = if is_CancelledError e then Raise e
    else if is_Exception e then Raise (RuntimeError msg (Some e))
    else Raise e.
Proof.
  unfold handlers. destruct (is_CancelledError e), (is_Exception e); reflexivity.
Qed.

End Run.

Section Stages.
Variable env : list str -> result completed.

(** [dig] starts one process. *)
Lemma trace_dig domain server :
  trace env (dig domain server) = [dig_cmd domain server].
Proof.
  unfold dig. simpl. destruct (env (dig_cmd domain server)) as [proc|e]; [|reflexivity].
  destruct (negb (returncode proc =? 0)%Z); [reflexivity|].
  destruct (split (strip (stdout proc))); reflexivity.
Qed.

(** [ping] starts one process. *)
Lemma trace_ping addr count :
  trace env (ping addr count) = [ping_cmd addr count].
Proof.
  unfold ping. simpl. destruct (env (ping_cmd addr count)) as [proc|e]; [|reflexivity].
  destruct (__init__ (stdout proc)) as [r|e]; [reflexivity|].
  destruct (is_Exception e); reflexivity.
Qed.

(** A non-zero exit status of [dig] is a [RuntimeError] with its diagnostic
    stream. *)
Lemma dig_exit_status domain server proc :
  env (dig_cmd domain server) = Return proc -> returncode proc <> 0%Z ->
  run env (dig domain server) = Raise (RuntimeError (stderr proc) None).
Proof.
  intros Henv Hrc. unfold dig. simpl. rewrite Henv.
  destruct (Z.eqb_spec (returncode proc) 0); [contradiction|reflexivity].
Qed.

(** Output of [ping] that the parser rejects is a [RuntimeError] with the
    diagnostic stream, caused by the parser's error. *)
Lemma ping_parse_error addr count proc e :
  env (ping_cmd addr count) = Return proc -> __init__ (stdout proc) = Raise e ->
  run env (ping addr count) = Raise (RuntimeError (stderr proc) (Some e)).
Proof.
  intros Henv He. unfold ping. simpl. rewrite Henv, He.
  now rewrite (init_Raise_inv _ _ He).
Qed.

(** An exception raised while a stage waits for its process leaves the
    stage as it is. *)
Lemma dig_await_raises domain server e :
  env (dig_cmd domain server) = Raise e -> run env (dig domain server) = Raise e.
Proof. intros Henv. unfold dig. simpl. now rewrite Henv. Qed.

Lemma ping_await_raises addr count e :
  env (ping_cmd addr count) = Raise e -> run env (ping addr count) = Raise e.
Proof. intros Henv. unfold ping. simpl. now rewrite Henv. Qed.

(** [get_results] from the outcomes of its two stages. *)
Lemma run_get_results domain server provider count semaphore :
  run env (get_results domain server provider count semaphore)
  = match run env (dig domain server) with
    | Raise e => run env (@handlers (option PingResults) (dig_error domain provider server) e)
    | Return None => Return None
    | Return (Some addr) =>
        match run env (ping addr count) with
        | Raise e => run env (@handlers (option PingResults)
                                (ping_error domain addr provider server) e)
        | Return results => Return (Some results)
        end
    end.
Proof.
  unfold get_results. rewrite run_async_with, run_await.
  destruct (run env (dig domain server)) as [[addr|]|e]; try reflexivity.
  rewrite run_await.
  destruct (run env (ping addr count)) as [results|e]; reflexivity.
Qed.

End Stages.

End TaskFacts.

(* ================================================================== *)
(** * Properties of the measurement task *)
(* ================================================================== *)

Module TaskProps.
Import Py Parser Aio Task Samples TaskFacts.

(** C1, as stated, fails: when [dig] exits with a non-zero status the
    task does not return a value, it raises. *)
Lemma failure_is_raised :
  run failing_dig
      (get_results (lit "example.com") (Some (lit "1.1.1.1"))
                   (Some (lit "cloudflare")) 3 (Some Semaphore))
  = Raise (RuntimeError
             (lit "Dig error: example.com from cloudflare (1.1.1.1)")
             (Some (RuntimeError (lit "connection timed out") None))).
Proof. reflexivity. Qed.

(** C1, amended.  When the resolve stage or the probe stage fails with an
    exception that is an [Exception], [get_results] raises to its caller a
    [RuntimeError] whose message names the stage, the domain, the provider
    and the server (and, for the probe stage, the resolved address), with
    the failure as its cause. *)
Theorem get_results_reraises (env : list str -> result completed)
  (domain : str) (server provider : option str) (count : nat)
  (semaphore : option context_manager) :
  (forall e,
     run env (dig domain server) = Raise e -> is_Exception e = true ->
     run env (get_results domain server provider count semaphore)
     = Raise (RuntimeError (dig_error domain provider server) (Some e))) /\
  (forall addr e,
     run env (dig domain server) = Return (Some addr) ->
     run env (ping addr count) = Raise e -> is_Exception e = true ->
     run env (get_results domain server provider count semaphore)
     = Raise (RuntimeError (ping_error domain addr provider server) (Some e))).
Proof.
  split.
  - intros e Hdig He. rewrite run_get_results, Hdig, run_handlers, He.
    destruct e; try discriminate; reflexivity.
  - intros addr e Hdig Hping He.
    rewrite run_get_results, Hdig, Hping, run_handlers, He.
    destruct e; try discriminate; reflexivity.
Qed.

Lemma get_results_reraises_witness :
  run unparsable_ping (dig (lit "example.com") (Some (lit "1.1.1.1")))
  = Return (Some (lit "93.184.216.34")) /\
  run unparsable_ping
      (get_results (lit "example.com") (Some (lit "1.1.1.1"))
                   (Some (lit "cloudflare")) 3 (Some Semaphore))
  = Raise (RuntimeError
             (lit "Ping error: example.com (93.184.216.34) from cloudflare (1.1.1.1)")
             (Some (RuntimeError (lit "ping: sendmsg: Network is unreachable")
                      (Some (RuntimeError [nl; nl] None))))).
Proof.
  split; [reflexivity|].
  exact (proj2 (get_results_reraises unparsable_ping (lit "example.com")
                  (Some (lit "1.1.1.1")) (Some (lit "cloudflare")) 3
                  (Some Semaphore))
               (lit "93.184.216.34") _ eq_refl eq_refl eq_refl).
Defined.

(** C3: the command that [ping] starts.  The task starts [dig] once and
    [ping] once, and the [ping] command is ["ping" "-qc1" addr] whatever
    [count] is. *)
Theorem ping_command_ignores_count (env : list str -> result completed)
  (domain addr : str) (server provider : option str) (count : nat)
  (semaphore : option context_manager) :
  run env (dig domain server) = Return (Some addr) ->
  trace env (get_results domain server provider count semaphore)
  = [dig_cmd domain server; [lit "ping"; lit "-qc1"; addr]].
Proof.
  intros Hdig. unfold get_results.
  rewrite trace_async_with, trace_await, trace_dig, Hdig.
  rewrite trace_await, trace_ping. cbn [app].
  destruct (run env (ping addr count)) as [r|e]; [reflexivity|].
  unfold handlers. destruct (is_CancelledError e), (is_Exception e); reflexivity.
Qed.

Lemma ping_command_ignores_count_witness :
  run unparsable_ping (dig (lit "example.com") (Some (lit "1.1.1.1")))
  = Return (Some (lit "93.184.216.34")) /\
  trace unparsable_ping
        (get_results (lit "example.com") (Some (lit "1.1.1.1"))
                     (Some (lit "cloudflare")) Batch.best_of (Some Semaphore))
  = [[lit "dig"; lit "+short"; lit "@1.1.1.1"; lit "example.com"];
     [lit "ping"; lit "-qc1"; lit "93.184.216.34"]].
Proof.
  split; [reflexivity|].
  exact (ping_command_ignores_count unparsable_ping (lit "example.com")
           (lit "93.184.216.34") (Some (lit "1.1.1.1")) (Some (lit "cloudflare"))
           Batch.best_of (Some Semaphore) eq_refl).
Defined.

(** C9.  A cancellation raised while the task waits for the process of
    [dig], or, once [dig] has given an address, for the process of
    [ping], leaves [get_results] as the same [CancelledError]: it is
    neither wrapped in a [RuntimeError] nor turned into a returned
    value. *)
Theorem cancellation_propagates (env : list str -> result completed)
  (domain : str) (server provider : option str) (count : nat)
  (semaphore : option context_manager) :
  (env (dig_cmd domain server) = Raise CancelledError ->
   run env (get_results domain server provider count semaphore)
   = Raise CancelledError) /\
  (forall addr,
     run env (dig domain server) = Return (Some addr) ->
     env (ping_cmd addr count) = Raise CancelledError ->
     run env (get_results domain server provider count semaphore)
     = Raise CancelledError).
Proof.
  split.
  - intros Hc. rewrite run_get_results.
    now rewrite (dig_await_raises env _ _ _ Hc), run_handlers.
  - intros addr Hdig Hc. rewrite run_get_results, Hdig.
    now rewrite (ping_await_raises env _ _ _ Hc), run_handlers.
Qed.

Lemma cancellation_propagates_witness :
  cancelled_in_ping (ping_cmd (lit "93.184.216.34") 3) = Raise CancelledError /\
  run cancelled_in_ping
      (get_results (lit "example.com") (Some (lit "1.1.1.1"))
                   (Some (lit "cloudflare")) 3 (Some Semaphore))
  = Raise CancelledError.
Proof.
  split; [reflexivity|].
  exact (proj2 (cancellation_propagates cancelled_in_ping (lit "example.com")
                  (Some (lit "1.1.1.1")) (Some (lit "cloudflare")) 3
                  (Some Semaphore))
               (lit "93.184.216.34") eq_refl eq_refl).
Defined.

End TaskProps.

(* ================================================================== *)
(** * Facts about the body of [main] *)
(* ================================================================== *)

Module BatchFacts.
Import Py Parser Aio Task Batch.

(** ** The interleaving loops *)

Section Rows.
Context {X : Type}.

Lemma append_at_spec (rows : list (list X)) i row x :
  nth_error rows i = Some row ->
  append_at rows i x = Return (firstn i rows ++ (row ++ [x]) :: skipn (S i) rows).
Proof. unfold append_at. now intros ->. Qed.

Lemma zip_append_nil_r (rows : list (list X)) : zip_append rows [] = rows.
Proof. destruct rows; reflexivity. Qed.

Lemma concat_zip_append (rows : list (list X)) : forall xs,
  Permutation (List.concat (zip_append rows xs)) (List.concat rows ++ xs).
Proof.
  induction rows as [|row rows IH]; intros xs.
  - simpl. induction xs as [|x xs IHx]; simpl; auto.
  - destruct xs as [|x xs].
    + simpl. now rewrite app_nil_r.
    + simpl. rewrite <- !app_assoc. apply Permutation_app_head.
      simpl. rewrite (IH xs).
      change (x :: List.concat rows ++ xs) with ((x :: List.concat rows) ++ xs).
      change (List.concat rows ++ x :: xs) with (List.concat rows ++ [x] ++ xs).
      rewrite app_assoc. apply Permutation_app_tail.
      apply Permutation_cons_append.
Qed.

End Rows.

Lemma add_server_spec rows server i addr :
  (i <= List.length rows)%nat ->
  add_server rows server i addr
  = Return (firstn i rows ++ zip_append (skipn i rows) [(server, addr)]).
Proof.
  intros Hi. unfold add_server.
  destruct (Nat.leb_spec (List.length rows) i) as [Hle|Hlt].
  - assert (i = List.length rows) by lia. subst i.
    rewrite (append_at_spec _ _ []).
    + rewrite (skipn_all2 (rows ++ [[]])) by (rewrite length_app; simpl; lia).
      rewrite firstn_app, Nat.sub_diag, firstn_all, skipn_all. simpl.
      now rewrite app_nil_r.
    + rewrite nth_error_app2, Nat.sub_diag by lia. reflexivity.
  - destruct (nth_error rows i) as [row|] eqn:E.
    + rewrite (append_at_spec _ _ row) by assumption.
      f_equal. f_equal.
      assert (Hs : skipn i rows = row :: skipn (S i) rows).
      { clear Hi Hlt. revert rows E.
        induction i as [|i IH]; intros [|r rows] E; try discriminate.
        - now injection E as ->.
        - simpl in *. now apply IH. }
      rewrite Hs. simpl. now rewrite zip_append_nil_r.
    + apply nth_error_None in E. lia.
Qed.

Lemma for_addrs_spec server addrs : forall i rows,
  (i <= List.length rows)%nat ->
  for_addrs server i addrs rows
  = Return (firstn i rows ++ zip_append (skipn i rows) (map (pair server) addrs)).
Proof.
  induction addrs as [|addr rest IH]; intros i rows Hi; simpl.
  - rewrite zip_append_nil_r. now rewrite firstn_skipn.
  - rewrite (add_server_spec _ _ _ _ Hi). simpl.
    assert (Hf : List.length (firstn i rows) = i) by (apply firstn_length_le; lia).
    destruct (skipn i rows) as [|row tl] eqn:Es.
    + simpl. rewrite IH.
      2:{ rewrite length_app. simpl. lia. }
      replace (S i) with (List.length (firstn i rows ++ [[(server, addr)]]))
        by (rewrite length_app; simpl; lia).
      rewrite firstn_all, skipn_all. simpl.
      now rewrite <- app_assoc.
    + simpl. rewrite zip_append_nil_r. rewrite IH.
      2:{ rewrite length_app. simpl. lia. }
      change (firstn i rows ++ (row ++ [(server, addr)]) :: tl)
        with (firstn i rows ++ [row ++ [(server, addr)]] ++ tl).
      rewrite app_assoc.
      replace (S i) with
        (List.length (firstn i rows ++ [row ++ [(server, addr)]]) + 0)%nat
        by (rewrite length_app; simpl; lia).
      rewrite firstn_app_2, skipn_app.
      rewrite skipn_all2 by lia.
      replace (List.length (firstn i rows ++ [row ++ [(server, addr)]]) + 0
               - List.length (firstn i rows ++ [row ++ [(server, addr)]]))%nat
        with 0%nat by lia.
      simpl. rewrite app_nil_r. now rewrite <- app_assoc.
Qed.

(** The loops never index past the end, and compute [rows_of]. *)
Lemma for_servers_spec servers : forall rows,
  for_servers servers rows
  = Return (fold_left (fun rows '(server, addrs) =>
                         zip_append rows (map (pair server) addrs))
                      servers rows).
Proof.
  induction servers as [|[server addrs] rest IH]; intros rows; simpl.
  - reflexivity.
  - rewrite for_addrs_spec by lia. simpl. apply IH.
Qed.

Lemma server_addrs_rows servers :
  server_addrs servers = Return (List.concat (rows_of servers)).
Proof. unfold server_addrs. now rewrite for_servers_spec. Qed.

(** ** The rows, by index *)

Lemma singletons_by_index {X} (xs : list X) : forall start,
  map (fun x => [x]) xs
  = map (fun i => opt_list (nth_error xs (i - start))) (seq start (List.length xs)).
Proof.
  induction xs as [|x xs IH]; intros start; simpl; [reflexivity|].
  rewrite Nat.sub_diag. simpl. f_equal.
  rewrite (IH (S start)). apply map_ext_in.
  intros i Hi. apply in_seq in Hi.
  replace (i - start)%nat with (S (i - S start)) by lia. reflexivity.
Qed.

Lemma zip_append_by_index {X} (f : nat -> list X) : forall m start xs,
  (forall i, (start + m <= i)%nat -> f i = []) ->
  zip_append (map f (seq start m)) xs
  = map (fun i => f i ++ opt_list (nth_error xs (i - start)))
        (seq start (Nat.max m (List.length xs))).
Proof.
  induction m as [|m IH]; intros start xs Hf.
  - simpl. rewrite (singletons_by_index xs start). apply map_ext_in.
    intros i Hi. apply in_seq in Hi. rewrite Hf by lia. reflexivity.
  - destruct xs as [|x xs].
    + rewrite zip_append_nil_r. cbn [List.length]. rewrite Nat.max_0_r.
      apply map_ext. intros i.
      destruct (i - start)%nat; simpl; now rewrite app_nil_r.
    + cbn [seq map zip_append List.length Nat.max].
      rewrite Nat.sub_diag. cbn [nth_error opt_list]. f_equal.
      rewrite (IH (S start) xs) by (intros i Hi; apply Hf; lia).
      apply map_ext_in. intros i Hi. apply in_seq in Hi.
      replace (i - start)%nat with (S (i - S start)) by lia. reflexivity.
Qed.

Lemma most_addrs_app servers server addrs :
  most_addrs (servers ++ [(server, addrs)])
  = Nat.max (most_addrs servers) (List.length addrs).
Proof.
  unfold most_addrs. induction servers as [|[sv ad] rest IH]; simpl.
  - lia.
  - rewrite IH. lia.
Qed.

Lemma ith_servers_app s1 s2 i :
  ith_servers (s1 ++ s2) i = ith_servers s1 i ++ ith_servers s2 i.
Proof. unfold ith_servers. apply flat_map_app. Qed.

Lemma ith_servers_beyond servers i :
  (most_addrs servers <= i)%nat -> ith_servers servers i = [].
Proof.
  unfold ith_servers, most_addrs.
  induction servers as [|[sv ad] rest IH]; simpl; intros Hi; [reflexivity|].
  rewrite IH by lia.
  destruct (nth_error ad i) eqn:E; [|reflexivity].
  assert (nth_error ad i <> None) by congruence.
  apply nth_error_Some in H. lia.
Qed.

Lemma rows_of_app servers server addrs :
  rows_of (servers ++ [(server, addrs)])
  = zip_append (rows_of servers) (map (pair server) addrs).
Proof. unfold rows_of. now rewrite fold_left_app. Qed.

(** Row [i] holds the [i]-th address of every provider that has one. *)
Lemma rows_of_by_index servers :
  rows_of servers = map (ith_servers servers) (seq 0 (most_addrs servers)).
Proof.
  induction servers as [|[server addrs] servers IH] using rev_ind.
  - reflexivity.
  - rewrite rows_of_app, IH, most_addrs_app.
    rewrite zip_append_by_index by (intros i Hi; apply ith_servers_beyond; lia).
    rewrite length_map. apply map_ext. intros i.
    rewrite ith_servers_app, Nat.sub_0_r. f_equal.
    unfold ith_servers. simpl. rewrite app_nil_r, nth_error_map.
    destruct (nth_error addrs i); reflexivity.
Qed.

Lemma configured_pairs_app s1 s2 :
  configured_pairs (s1 ++ s2) = configured_pairs s1 ++ configured_pairs s2.
Proof. unfold configured_pairs. apply flat_map_app. Qed.

Lemma rows_of_pairs servers :
  Permutation (List.concat (rows_of servers)) (configured_pairs servers).
Proof.
  induction servers as [|[server addrs] servers IH] using rev_ind.
  - reflexivity.
  - rewrite rows_of_app, concat_zip_append, configured_pairs_app, IH.
    unfold configured_pairs at 2. simpl. now rewrite app_nil_r.
Qed.

Lemma server_addrs_spec servers :
  server_addrs servers = Return (index_major servers).
Proof.
  rewrite server_addrs_rows, rows_of_by_index.
  unfold index_major. now rewrite flat_map_concat_map.
Qed.

End BatchFacts.

Module AggregateFacts.
Import Py Parser Aio Task Batch BatchFacts.

(** ** The awaitables *)

Lemma length_jobs domains pairs :
  List.length (jobs domains pairs)
  = (List.length (firstn num_domains domains) * List.length pairs)%nat.
Proof.
  unfold jobs. induction (firstn num_domains domains) as [|d ds IH]; simpl.
  - reflexivity.
  - now rewrite length_app, length_map, IH.
Qed.

(** ** [gather] *)

Lemma Return_injective {X} (vs ws : list X) :
  map Return vs = map Return ws -> vs = ws.
Proof.
  revert ws. induction vs as [|v vs IH]; intros [|w ws]; simpl; try discriminate.
  - reflexivity.
  - intros [= -> H]. f_equal. auto.
Qed.

Lemma no_Raise_in_values {X} (vs : list X) e : ~ In (Raise e) (map Return vs).
Proof.
  intros H. apply in_map_iff in H as (v & Hv & _). discriminate.
Qed.

Lemma gather_values_inv {X} (vs : list X) g :
  gather (map Return vs) g -> g = Return vs.
Proof.
  intros H. inversion H as [ws Hws|outs e Hin]; subst.
  - now apply Return_injective in Hws as ->.
  - now apply no_Raise_in_values in Hin.
Qed.

Lemma gather_raises_inv {X} (outs : list (result X)) e0 g :
  In (Raise e0) outs -> gather outs g ->
  exists e, In (Raise e) outs /\ g = Raise e.
Proof.
  intros Hin H. inversion H as [ws Hws|outs' e Hin']; subst.
  - now apply no_Raise_in_values in Hin.
  - eauto.
Qed.

(** ** Counting what goes into the table *)

Lemma update_adds_one {V} (size : V -> nat) default f :
  size default = 0%nat -> (forall v, size (f v) = S (size v)) ->
  forall d k,
    list_sum (map (fun '(_, v) => size v) (update default f d k))
    = S (list_sum (map (fun '(_, v) => size v) d)).
Proof.
  intros Hd Hf d k. induction d as [|[k' v] d IH]; simpl.
  - rewrite Hf, Hd. reflexivity.
  - destruct (str_eqb k' k); simpl.
    + rewrite Hf. reflexivity.
    + rewrite IH. lia.
Qed.

Lemma count_record_min by_provider provider domain _min :
  count_mins (record_min by_provider provider domain _min)
  = S (count_mins by_provider).
Proof.
  unfold count_mins, record_min.
  apply (update_adds_one
           (fun d => list_sum (map (fun '(_, mins) => List.length mins) d))).
  - reflexivity.
  - intros d. apply (update_adds_one (fun mins => List.length mins)).
    + reflexivity.
    + intros mins. rewrite length_app. simpl. lia.
Qed.

Lemma count_fold items : forall acc,
  count_mins (fold_left (fun acc '(provider, domain, _min) =>
                           record_min acc provider domain _min) items acc)
  = (count_mins acc + List.length items)%nat.
Proof.
  induction items as [|[[p d] m] items IH]; intros acc; simpl.
  - lia.
  - rewrite IH, count_record_min. lia.
Qed.

Lemma length_zip3 {X Y W} (xs : list X) : forall (ys : list Y) (ws : list W),
  List.length ys = List.length xs -> List.length ws = List.length xs ->
  List.length (zip3 xs ys ws) = List.length xs.
Proof.
  induction xs as [|x xs IH]; intros [|y ys] [|w ws]; simpl; try discriminate; auto.
Qed.

(** Every zipped outcome is counted once in the table. *)
Lemma total_attempted_aggregate providers domains results :
  total_attempted (aggregate providers domains results)
  = List.length (zip3 providers domains (mins_of results)).
Proof.
  unfold total_attempted, aggregate, group_mins.
  rewrite <- (Nat.add_0_l (List.length _)).
  change 0%nat with (count_mins []) at 1.
  rewrite <- count_fold. unfold count_mins.
  rewrite map_map. f_equal. apply map_ext. intros [domain d].
  rewrite map_map. f_equal. apply map_ext. intros [key mins]. reflexivity.
Qed.

End AggregateFacts.

(* ================================================================== *)
(** * Properties of the batch *)
(* ================================================================== *)

Module BatchProps.
Import Py Parser Aio Task Batch Samples BatchFacts AggregateFacts.

(** C5.  The interleaving loops never index past the end; they yield the
    pairs in index-major, provider-minor order (the first address of every
    provider in provider order, then the second addresses, a provider
    without an [i]-th address being skipped at index [i]), and that list
    holds every configured (provider, address) pair exactly as often as
    the configuration does. *)
Theorem server_addrs_index_major (servers : list (str * list str)) :
  server_addrs servers = Return (index_major servers) /\
  Permutation (index_major servers) (configured_pairs servers).
Proof.
  split.
  - apply server_addrs_spec.
  - unfold index_major. rewrite flat_map_concat_map, <- rows_of_by_index.
    apply rows_of_pairs.
Qed.

(** The example of the specification: [{A:[a1,a2], B:[b1]}]. *)
Example server_addrs_A_B :
  server_addrs [(lit "A", [lit "a1"; lit "a2"]); (lit "B", [lit "b1"])]
  = Return [(lit "A", lit "a1"); (lit "B", lit "b1"); (lit "A", lit "a2")].
Proof. reflexivity. Qed.

(** [SERVERS] gives cloudflare, google, cloudflare, google. *)
Example server_addrs_SERVERS :
  server_addrs SERVERS
  = Return [(lit "cloudflare", lit "1.1.1.1"); (lit "google", lit "8.8.8.8");
            (lit "cloudflare", lit "1.0.0.1"); (lit "google", lit "8.8.4.4")].
Proof. reflexivity. Qed.

(** C4: a minimum latency of [0.0] is filtered out with the absent ones.
    Of the two present minima [0.0] and [10.0] only one is counted as
    usable, the mean is 10 and not 5, and the cell is annotated [(1/2)]. *)
Theorem zero_latency_not_usable :
  usable (cell_of zero_and_ten) = 1%nat /\
  attempted (cell_of zero_and_ten) = 2%nat /\
  (exists q, mean (cell_of zero_and_ten) = Mean q /\ q == 10) /\
  annotation (cell_of zero_and_ten) = Some (1%nat, 2%nat).
Proof.
  repeat split. eexists. split; reflexivity.
Qed.

(** The same cell as [main] prints it, with [str] on floats left open. *)
Example zero_latency_cell_text (str_of_float : Q -> str) :
  cell_text str_of_float (cell_of zero_and_ten)
  = str_of_float ((0 + 10) / inject_Z 1) ++ lit " (1/2)".
Proof. reflexivity. Qed.

(** The example of the specification: [[10, 20, absent]] and
    [[absent, absent]]. *)
Example cell_of_10_20_absent :
  cell_of [Some 10; Some 20; None]
  = {| usable := 2; attempted := 3; mean := Mean (30 # 2);
       annotation := Some (2%nat, 3%nat) |}.
Proof. reflexivity. Qed.

Example cell_of_absent_absent :
  mean (cell_of [None; None]) = NoData.
Proof. reflexivity. Qed.

(** What the loop body computes in general: the counts with the
    filtered minima as the usable ones, the annotation when the counts
    differ, and the sentinel when nothing is usable. *)
Lemma cell_of_counts (mins : list (option Q)) :
  attempted (cell_of mins) = List.length mins /\
  usable (cell_of mins) = List.length (filter truthy mins) /\
  (usable (cell_of mins) <= attempted (cell_of mins))%nat /\
  (annotation (cell_of mins) = None <-> usable (cell_of mins) = attempted (cell_of mins)) /\
  (mean (cell_of mins) = NoData <-> usable (cell_of mins) = 0%nat).
Proof.
  unfold cell_of. cbn [attempted usable annotation mean].
  split; [reflexivity|]. split; [reflexivity|]. split; [apply filter_length_le|].
  split.
  - destruct (Nat.eqb_spec (List.length (filter truthy mins)) (List.length mins)).
    + tauto.
    + split; [discriminate|contradiction].
  - destruct (List.length (filter truthy mins)); split; try discriminate; reflexivity.
Qed.

(** When no present minimum is zero, the filter keeps exactly the present
    minima. *)
Lemma filter_truthy_present (mins : list (option Q)) :
  (forall q, In (Some q) mins -> ~ q == 0) ->
  filter truthy mins = filter present mins.
Proof.
  induction mins as [|[q|] mins IH]; intros H; simpl.
  - reflexivity.
  - destruct (Qeq_bool q 0) eqn:E.
    + apply Qeq_bool_iff in E. exfalso. apply (H q); [now left|assumption].
    + simpl. f_equal. apply IH. intros q' Hq'. apply H. now right.
  - apply IH. intros q' Hq'. apply H. now right.
Qed.

(** C2, as stated, fails: in the batch of two tasks whose first [dig]
    fails, [main] ends with the exception and builds no table. *)
Lemma failed_task_aborts_batch :
  In (Raise (RuntimeError (lit "Dig error: bad.example from A (a1)")
               (Some (RuntimeError (lit "connection timed out") None))))
     bad_domain_outs /\
  ~ exists t, main_with one_server two_domains bad_domain_outs (Return t).
Proof.
  assert (Hin : In (Raise (RuntimeError (lit "Dig error: bad.example from A (a1)")
                       (Some (RuntimeError (lit "connection timed out") None))))
                   bad_domain_outs).
  { left. reflexivity. }
  split; [exact Hin|].
  intros [t H]. unfold main_with in H. rewrite server_addrs_spec in H.
  destruct H as (_ & g & Hg & Hfinal).
  destruct (gather_raises_inv _ _ _ Hin Hg) as (e & _ & ->).
  discriminate.
Qed.

(** C2, amended.  [main] hands one awaitable per (domain, pair) to
    [gather].  When every awaitable returns, [main] gets exactly one result
    per awaitable and counts each of them in one cell of its table; when
    some awaitable raises, [main] ends with the exception of an awaitable
    that raised, and builds no table. *)
Theorem batch_outcome (servers : list (str * list str)) (domains : list str)
  (outs : list (result (option PingResults))) (final : result table) :
  main_with servers domains outs final ->
  let js := jobs domains (index_major servers) in
  List.length js
  = (List.length (firstn num_domains domains)
     * List.length (configured_pairs servers))%nat /\
  (forall results,
     outs = map Return results ->
     List.length results = List.length js /\
     final = Return (aggregate (providers_of js) (domains_of js) results) /\
     total_attempted (aggregate (providers_of js) (domains_of js) results)
     = List.length js) /\
  (forall e0,
     In (Raise e0) outs ->
     exists e, In (Raise e) outs /\ final = Raise e).
Proof.
  intros H js. unfold main_with in H. rewrite server_addrs_spec in H.
  fold js in H. destruct H as (Hlen & g & Hg & Hfinal).
  split; [|split].
  - unfold js. rewrite length_jobs. f_equal.
    apply Permutation_length. unfold index_major.
    rewrite flat_map_concat_map, <- rows_of_by_index. apply rows_of_pairs.
  - intros results ->. rewrite length_map in Hlen.
    apply gather_values_inv in Hg. subst g final.
    split; [assumption|]. split; [reflexivity|].
    rewrite total_attempted_aggregate, length_zip3;
      unfold providers_of, domains_of, mins_of; rewrite ?length_map; auto.
  - intros e0 Hin. destruct (gather_raises_inv _ _ _ Hin Hg) as (e & He & ->).
    exists e. subst final. auto.
Qed.

Lemma batch_outcome_witness :
  main_with one_server two_domains bad_domain_outs
    (Raise (RuntimeError (lit "Dig error: bad.example from A (a1)")
              (Some (RuntimeError (lit "connection timed out") None)))) /\
  List.length (jobs two_domains (index_major one_server)) = 2%nat.
Proof.
  assert (H : main_with one_server two_domains bad_domain_outs
                (Raise (RuntimeError (lit "Dig error: bad.example from A (a1)")
                          (Some (RuntimeError (lit "connection timed out") None))))).
  { unfold main_with. rewrite server_addrs_spec. split; [reflexivity|].
    eexists. split; [apply gather_raises; left; reflexivity|reflexivity]. }
  split; [exact H|].
  exact (proj1 (batch_outcome _ _ _ _ H)).
Defined.

End BatchProps.

(* ================================================================== *)
(** * Facts about the tasks sharing the semaphore *)
(* ================================================================== *)

Module PoolFacts.
Import Py Parser Aio Task Batch Pool.

Section Gate.
Context {A : Type}.

Lemma holders_split (before after : list (bool * coro A)) t n :
  holders {| value := n; tasks := before ++ t :: after |}
  = (List.length (filter fst before) + (if fst t then 1 else 0)
     + List.length (filter fst after))%nat.
Proof.
  unfold holders. cbn [tasks]. rewrite filter_app, length_app. simpl.
  destruct (fst t); simpl; lia.
Qed.

Lemma invariant_init n0 (cs : list (coro A)) :
  Forall (gated false) cs -> invariant n0 (init n0 cs).
Proof.
  intros Hcs. split.
  - unfold holders, init. cbn [tasks value].
    induction cs as [|c cs IH]; simpl; [lia|].
    inversion Hcs; subst. auto.
  - unfold init. cbn [tasks]. apply Forall_map. simpl. exact Hcs.
Qed.

Lemma Forall_replace (P : bool * coro A -> Prop) before t t' after :
  Forall P (before ++ t :: after) -> P t' -> Forall P (before ++ t' :: after).
Proof.
  intros H Ht'. apply Forall_app in H as [Hb Ha].
  inversion Ha; subst. apply Forall_app. split; [assumption|].
  constructor; assumption.
Qed.

Lemma Forall_at (P : bool * coro A -> Prop) before t after :
  Forall P (before ++ t :: after) -> P t.
Proof.
  intros H. apply Forall_app in H as [_ Ha]. now inversion Ha.
Qed.

Lemma invariant_step n0 (s s' : state A) :
  invariant n0 s -> step s s' -> invariant n0 s'.
Proof.
  intros [Hsum Hall] Hstep.
  destruct Hstep as [n before k after|n before k after
                    |n before held cmd k out after|n before held k after];
    pose proof (Forall_at _ _ _ _ Hall) as Ht; cbn [fst snd gated] in Ht;
    rewrite holders_split in Hsum; cbn [value fst] in Hsum;
    (split; [rewrite holders_split; cbn [value fst]
            |cbn [tasks] in *; eapply Forall_replace; [exact Hall|]; cbn [fst snd]]).
  - lia.
  - tauto.
  - lia.
  - destruct Ht as (_ & _ & Ht). apply Ht.
  - lia.
  - destruct Ht as (-> & Ht). apply Ht.
  - destruct Ht as (-> & _). lia.
  - tauto.
Qed.

Lemma invariant_reachable n0 (s0 s : state A) :
  invariant n0 s0 -> reachable s0 s -> invariant n0 s.
Proof.
  intros H0 Hr. induction Hr as [|s s' Hr IH Hstep]; [assumption|].
  now apply invariant_step with s.
Qed.

(** Under the invariant, a task that waits for a process holds the
    semaphore. *)
Lemma in_flight_holders n0 (s : state A) :
  invariant n0 s -> (in_flight s <= holders s)%nat.
Proof.
  intros [_ Hall]. unfold in_flight, holders.
  induction (tasks s) as [|[held c] ts IH]; simpl; [lia|].
  inversion Hall as [|t ts' Ht Hts]; subst. specialize (IH Hts).
  unfold in_process at 1. cbn [fst snd] in *.
  destruct c; simpl in *; destruct held; simpl; try lia;
    destruct Ht as [Ht _]; discriminate.
Qed.

(** ** [async with semaphore] around a body that leaves the semaphore
    alone *)

Lemma gated_await_release (body : coro A) :
  ungated body -> gated true (await body (fun out => Release (Done out))).
Proof.
  induction body as [r|cmd f IH|f IH|c IH]; simpl; intros H.
  - auto.
  - split; [reflexivity|]. intros out. apply IH, H.
  - contradiction.
  - contradiction.
Qed.

Lemma gated_async_with (body : coro A) :
  ungated body -> gated false (async_with Semaphore body).
Proof.
  intros H. simpl. split; [reflexivity|]. split.
  - now apply gated_await_release.
  - reflexivity.
Qed.

End Gate.

Lemma ungated_await {A B} (c : coro A) (k : result A -> coro B) :
  ungated c -> (forall r, ungated (k r)) -> ungated (await c k).
Proof.
  intros Hc Hk. induction c as [r|cmd f IH|f IH|c IH]; simpl in *.
  - apply Hk.
  - intros out. apply IH, Hc.
  - contradiction.
  - contradiction.
Qed.

Lemma ungated_handlers {A} msg e : ungated (@handlers A msg e).
Proof.
  unfold handlers. destruct (is_CancelledError e), (is_Exception e); exact I.
Qed.

Lemma ungated_dig domain server : ungated (dig domain server).
Proof.
  unfold dig. simpl. intros [proc|e]; [|exact I].
  destruct (negb (returncode proc =? 0)%Z); [exact I|].
  destruct (split (strip (stdout proc))); exact I.
Qed.

Lemma ungated_ping addr count : ungated (ping addr count).
Proof.
  unfold ping. simpl. intros [proc|e]; [|exact I].
  destruct (__init__ (stdout proc)) as [r|e]; [exact I|].
  destruct (is_Exception e); exact I.
Qed.

(** [get_results] with the semaphore acquires it before [dig] and
    releases it after the last of its stages, however they end. *)
Lemma gated_get_results domain server provider count :
  gated false (get_results domain server provider count (Some Semaphore)).
Proof.
  unfold get_results. apply gated_async_with.
  apply ungated_await; [apply ungated_dig|].
  intros [[addr|]|e].
  - apply ungated_await; [apply ungated_ping|].
    intros [results|e]; [exact I|apply ungated_handlers].
  - exact I.
  - apply ungated_handlers.
Qed.

Lemma gated_jobs domains pairs :
  Forall (gated false) (awaitables_of (jobs domains pairs)).
Proof.
  unfold awaitables_of, jobs. apply Forall_map, Forall_flat_map.
  apply Forall_forall. intros domain _. apply Forall_map.
  apply Forall_forall. intros [provider server] _.
  apply gated_get_results.
Qed.

End PoolFacts.

(* ================================================================== *)
(** * Facts about the span of the semaphore *)
(* ================================================================== *)

Module SpanFacts.
Import Py Parser Aio Task Batch Pool Span PoolFacts.

Lemma counts_le {X} (P : X -> Prop) (Q : X -> bool) l n :
  Forall (fun x => P x -> Q x = true) l -> counts P l n ->
  (n <= List.length (filter Q l))%nat.
Proof.
  intros Hall Hc. induction Hc as [|x l n Hx Hc IH|x l n Hx Hc IH];
    cbn [filter List.length]; [lia| |];
    inversion Hall as [|y l' Hy Hl]; subst; specialize (IH Hl).
  - rewrite (Hy Hx). cbn [List.length]. lia.
  - destruct (Q x); cbn [List.length]; lia.
Qed.

Lemma Forall2_combine {X Y} (R : X -> Y -> Prop) l l' :
  Forall2 R l l' -> Forall (fun p => R (fst p) (snd p)) (combine l l').
Proof.
  induction 1 as [|x y l l' Hxy HF IH]; cbn [combine]; constructor; assumption.
Qed.

Lemma filter_combine_snd {X Y} (Q : Y -> bool) (l : list X) (l' : list Y) :
  List.length l = List.length l' ->
  List.length (filter (fun p => Q (snd p)) (combine l l'))
  = List.length (filter Q l').
Proof.
  revert l'. induction l as [|x l IH]; intros [|y l'] E; try discriminate;
    [reflexivity|].
  cbn [combine filter snd]. injection E as E. specialize (IH _ E).
  destruct (Q y); cbn [List.length]; congruence.
Qed.

Section Marks.
Context {A : Type}.

Lemma observe_app (m1 m2 : list bool) (t1 t2 : list (bool * coro A)) :
  List.length m1 = List.length t1 ->
  observe (m1 ++ m2) (t1 ++ t2) = observe m1 t1 ++ observe m2 t2.
Proof.
  revert t1. induction m1 as [|m m1 IH]; intros [|t t1] E; try discriminate;
    [reflexivity|].
  cbn [app observe]. injection E as E. now rewrite (IH _ E).
Qed.

Lemma observe_fixed (marks : list bool) (ts : list (bool * coro A)) :
  Forall2 phase marks ts -> observe marks ts = marks.
Proof.
  induction 1 as [|m t marks ts [Hm _] HF IH]; [reflexivity|].
  cbn [observe]. rewrite IH. f_equal.
  destruct m; [reflexivity|]. cbn [orb].
  destruct (in_process t); [symmetry; now apply Hm|reflexivity].
Qed.

(** Resuming one task keeps every task where its mark says. *)
Lemma phase_replace (marks : list bool) before (t t' : bool * coro A) after :
  Forall2 phase marks (before ++ t :: after) ->
  (forall m, phase m t -> phase (m || in_process t') t') ->
  Forall2 phase (observe marks (before ++ t' :: after)) (before ++ t' :: after).
Proof.
  intros HF Ht.
  apply Forall2_app_inv_r in HF as (m1 & m2 & HF1 & HF2 & ->).
  inversion HF2 as [|m t0 m3 ts Hm HF3]; subst.
  rewrite observe_app by exact (Forall2_length HF1).
  cbn [observe]. rewrite (observe_fixed _ _ HF1), (observe_fixed _ _ HF3).
  apply Forall2_app; [assumption|]. constructor; [now apply Ht|assumption].
Qed.

Lemma phase_step (h : history A) s' :
  Forall2 phase (begun h) (tasks (now h)) -> step (now h) s' ->
  Forall2 phase (observe (begun h) (tasks s')) (tasks s').
Proof.
  intros HF Hstep. remember (now h) as s eqn:Es.
  destruct Hstep as [n before k after|n before k after
                    |n before held cmd k out after|n before held k after];
    cbn [tasks] in *; (eapply phase_replace; [exact HF|]);
    intros m [_ Hm]; (split; [intros ->; apply orb_true_r|]);
    cbn [fst snd entering staged gone] in Hm;
    destruct Hm as [(_ & _ & Hm)|[(Hh & Hm)|(_ & Hm)]];
    try contradiction; try discriminate.
  - right. left. cbn [fst snd]. split; [reflexivity|apply Hm].
  - right. right. cbn [fst snd]. split; [reflexivity|apply Hm].
  - right. left. cbn [fst snd]. split; [assumption|apply Hm].
  - right. right. cbn [fst snd]. split; [reflexivity|assumption].
Qed.

Lemma phase_start n (cs : list (coro A)) :
  Forall entering cs ->
  Forall2 phase (begun (start n cs)) (tasks (now (start n cs))).
Proof.
  unfold start, init. cbn [now begun tasks].
  induction 1 as [|c cs Hc Hcs IH]; cbn [map observe]; [constructor|].
  destruct c as [r|cmd k|k|k]; try contradiction.
  constructor; [|exact IH].
  split; [discriminate|]. left. auto.
Qed.

Lemma phase_reaches n (cs : list (coro A)) h :
  Forall entering cs -> reaches (start n cs) h ->
  Forall2 phase (begun h) (tasks (now h)).
Proof.
  intros Hcs Hr. induction Hr as [|h s' Hr IH Hstep].
  - now apply phase_start.
  - cbn [now begun]. now apply phase_step.
Qed.

(** A history is a run of the event loop. *)
Lemma reaches_reachable (h0 h : history A) :
  reaches h0 h -> reachable (now h0) (now h).
Proof.
  induction 1 as [|h s' Hr IH Hstep]; [constructor|].
  cbn [now]. now apply reach_step with (now h).
Qed.

(** Every run of the event loop has its history. *)
Lemma reachable_reaches (h0 : history A) s :
  reachable (now h0) s -> exists h, reaches h0 h /\ now h = s.
Proof.
  induction 1 as [|s s' Hr (h & Hh & <-) Hstep].
  - exists h0. split; [constructor|reflexivity].
  - eexists. split; [apply (reaches_step h0 h s' Hh Hstep)|reflexivity].
Qed.

(** ** What a task's place says about the semaphore *)

Lemma gone_no_process (c : coro A) : gone c -> ~ process_ahead c.
Proof. destruct c; simpl; tauto. Qed.

Lemma phase_in_stages m (t : bool * coro A) :
  phase m t -> in_stages (m, t) -> fst t = true.
Proof.
  intros [_ [(Hm & _)|[(Hh & _)|(_ & Hg)]]] [Hb Ha]; cbn [fst snd] in *.
  - congruence.
  - assumption.
  - now apply gone_no_process in Hg.
Qed.

Lemma phase_in_process m (t : bool * coro A) :
  phase m t -> in_process t = true -> in_stages (m, t).
Proof.
  intros [Hm _] Hp. split; cbn [fst snd]; [now apply Hm|].
  unfold in_process in Hp. now destruct (snd t).
Qed.

Lemma phase_acquire m (t : bool * coro A) k :
  phase m t -> snd t = Acquire k -> m = false.
Proof.
  intros [_ [(Hm & _)|[(_ & Hs)|(_ & Hg)]]] E; [assumption| |];
    rewrite E in *; contradiction.
Qed.

Lemma phase_release m (t : bool * coro A) k :
  phase m t -> snd t = Release k -> fst t = true /\ ~ process_ahead k.
Proof.
  intros [_ [(_ & _ & He)|[(Hh & Hs)|(_ & Hg)]]] E;
    rewrite E in *; try contradiction.
  split; [assumption|]. now apply gone_no_process.
Qed.

(** ** [async with semaphore] around a body that leaves the semaphore
    alone *)

Lemma staged_await_release (body : coro A) :
  ungated body -> staged (await body (fun out => Release (Done out))).
Proof.
  induction body as [r|cmd f IH|f IH|c IH]; simpl; intros H.
  - exact I.
  - intros out. apply IH, H.
  - contradiction.
  - contradiction.
Qed.

Lemma entering_async_with (body : coro A) :
  ungated body -> entering (async_with Semaphore body).
Proof.
  intros H. simpl. split; [now apply staged_await_release|].
  intros e. exact I.
Qed.

End Marks.

(** [get_results] with the semaphore waits for it first, runs both of its
    stages with it, then releases it and is over. *)
Lemma entering_get_results domain server provider count :
  entering (get_results domain server provider count (Some Semaphore)).
Proof.
  unfold get_results. apply entering_async_with.
  apply ungated_await; [apply ungated_dig|].
  intros [[addr|]|e].
  - apply ungated_await; [apply ungated_ping|].
    intros [results|e]; [exact I|apply ungated_handlers].
  - exact I.
  - apply ungated_handlers.
Qed.

Lemma entering_jobs domains pairs :
  Forall entering (awaitables_of (jobs domains pairs)).
Proof.
  unfold awaitables_of, jobs. apply Forall_map, Forall_flat_map.
  apply Forall_forall. intros domain _. apply Forall_map.
  apply Forall_forall. intros [provider server] _.
  apply entering_get_results.
Qed.

End SpanFacts.

(* ================================================================== *)
(** * The concurrency ceiling *)
(* ================================================================== *)

Module PoolProps.
Import Py Parser Aio Task Batch Pool Samples Span PoolFacts SpanFacts.

(** C10.  In every state that the tasks of [main] can reach from the
    start of the batch, whatever the order in which the event loop resumes
    them and however their processes end (cancellations included):
    every task has its mark; a task waiting for [dig] or for [ping] is
    past the beginning of its first stage and not past the end of its
    last; every task that is so is inside [async with semaphore]; a task
    waiting for the semaphore has begun no process, so the semaphore is
    acquired before [dig]; a task about to release is inside and has no
    process left, so the semaphore is released only after the last stage
    has ended; the counter of the semaphore is 50 less the number of
    tasks inside; and the tasks past the beginning of [dig] and not past
    the end of their last stage number at most the tasks inside, hence
    at most 50, as do the tasks waiting for a process. *)
Theorem concurrency_ceiling (servers : list (str * list str))
  (domains : list str) (h : history (option PingResults)) :
  reaches
    (start semaphore_value (awaitables_of (jobs domains (index_major servers)))) h ->
  List.length (begun h) = List.length (tasks (now h)) /\
  Forall (fun t =>
            (in_process (snd t) = true -> in_stages t) /\
            (in_stages t -> inside t = true) /\
            (forall k, snd (snd t) = Acquire k -> fst t = false) /\
            (forall k, snd (snd t) = Release k ->
                       inside t = true /\ ~ process_ahead k))
         (marked_tasks h) /\
  (value (now h) + holders (now h) = 50)%nat /\
  (forall n, counts in_stages (marked_tasks h) n ->
             (n <= holders (now h))%nat /\ (n <= 50)%nat) /\
  (in_flight (now h) <= 50)%nat.
Proof.
  intros Hr.
  assert (Hinv : invariant semaphore_value (now h)).
  { apply invariant_reachable
      with (now (start semaphore_value
                   (awaitables_of (jobs domains (index_major servers))))).
    - apply invariant_init, gated_jobs.
    - now apply reaches_reachable. }
  pose proof (phase_reaches _ _ _ (entering_jobs _ _) Hr) as Hph.
  pose proof (in_flight_holders _ _ Hinv) as Hle.
  destruct Hinv as [Hsum _]. unfold semaphore_value in Hsum.
  pose proof (Forall2_length Hph) as Hlen.
  pose proof (Forall2_combine _ _ _ Hph) as Hall.
  assert (Hcount : forall n, counts in_stages (marked_tasks h) n ->
                             (n <= holders (now h))%nat).
  { intros n Hn. unfold holders.
    rewrite <- (filter_combine_snd fst (begun h) (tasks (now h)) Hlen).
    apply (counts_le in_stages (fun p => fst (snd p)) _ _); [|exact Hn].
    unfold marked_tasks. eapply Forall_impl; [|exact Hall].
    intros [m t] Hp Hs. now apply phase_in_stages with m. }
  split; [exact Hlen|]. split; [|split; [exact Hsum|split; [|lia]]].
  - unfold marked_tasks. eapply Forall_impl; [|exact Hall].
    intros [m t] Hp. cbn [fst snd] in Hp. unfold inside. cbn [fst snd].
    split; [now apply phase_in_process|].
    split; [now apply phase_in_stages|].
    split; intros k E.
    + now apply phase_acquire with t k.
    + now apply phase_release with m.
  - intros n Hn. specialize (Hcount n Hn). lia.
Qed.

Lemma concurrency_ceiling_witness :
  reaches
    (start semaphore_value (awaitables_of (jobs two_domains (index_major one_server))))
    first_begun /\
  counts in_stages (marked_tasks first_begun) 1 /\
  (1 <= holders (now first_begun))%nat /\ (1 <= 50)%nat.
Proof.
  assert (H : reaches
                (start semaphore_value
                   (awaitables_of (jobs two_domains (index_major one_server))))
                first_begun).
  { exact (reaches_step _
             (start semaphore_value
                (awaitables_of (jobs two_domains (index_major one_server))))
             first_in_dig (reaches_start _) (step_acquire 49 [] _ [_])). }
  assert (Hc : counts in_stages (marked_tasks first_begun) 1).
  { apply (counts_in in_stages (true, (true, _)) [_] 0).
    - split; [reflexivity|exact I].
    - apply (counts_out in_stages (false, _) [] 0).
      + intros [Hb _]. exact (Bool.diff_false_true Hb).
      + apply counts_nil. }
  split; [exact H|]. split; [exact Hc|].
  destruct (concurrency_ceiling _ _ _ H) as (_ & _ & _ & Hn & _).
  exact (Hn 1%nat Hc).
Defined.

(** A task that gave the semaphore back between its two stages would
    stand, after [dig], between the beginning of its first stage and the
    end of its last one without being inside [async with]. *)
Example released_between_is_outside :
  exists h,
    reaches (start semaphore_value
               [released_between (lit "example.com") (lit "93.184.216.34")]) h /\
    Exists (fun t => in_stages t /\ inside t = false) (marked_tasks h).
Proof.
  eexists. split.
  - eapply reaches_step;
      [eapply reaches_step; [eapply reaches_step; [apply reaches_start|]|]|].
    + exact (step_acquire 49 [] _ []).
    + exact (step_exec 49 [] true _ _ (answer "93.184.216.34") []).
    + exact (step_release 49 [] true _ []).
  - apply Exists_cons_hd. split; [|reflexivity].
    split; [reflexivity|]. exists (Return tt). exact I.
Qed.

End PoolProps.

(* ================================================================== *)
(** * Further properties of the parser *)
(* ================================================================== *)

Module ParserMore.
Import Py Re Parser Grammar Glue Samples ReFacts FieldFacts ParserFacts.

(** X1.  Whatever precedes the statistics line, as long as it does not end
    with a digit, is skipped: the constructor returns the result that the
    two lines at the end of the output denote. *)
Theorem parse_after_header (pre : str) (st : stats) (rt : option rtt) :
  fields_ok st rt = true -> header pre ->
  __init__ (pre ++ text st rt) = Return (denoted st rt).
Proof. apply init_after_header. Qed.

Lemma parse_after_header_witness :
  fields_ok one_received (Some one_rtt) = true /\ header ping_header /\
  __init__ (ping_header ++ text one_received (Some one_rtt))
  = Return (denoted one_received (Some one_rtt)).
Proof.
  split; [reflexivity|]. split; [reflexivity|].
  exact (parse_after_header ping_header one_received (Some one_rtt) eq_refl eq_refl).
Defined.

Lemma glued_ok ds st rt :
  all_digits ds = true -> fields_ok st rt = true -> fields_ok (glued ds st) rt = true.
Proof.
  unfold fields_ok, stats_ok, glued. cbn [s_transmitted s_received s_errors s_loss s_time].
  intros Hds Hok.
  apply andb_prop in Hok as [Hok Hrt].
  apply andb_prop in Hok as [Hok Htime]. apply andb_prop in Hok as [Hok Hloss].
  apply andb_prop in Hok as [Hok Herrs]. apply andb_prop in Hok as [Ht Hr].
  rewrite Hr, Herrs, Hloss, Htime, Hrt.
  rewrite int_text_intro; [reflexivity| |].
  - apply int_text_nonempty in Ht. destruct ds; [assumption|discriminate].
  - unfold all_digits. rewrite forallb_app.
    apply andb_true_intro. split; [assumption|now apply int_text_all_digits].
Qed.

Lemma glued_text ds st rt : text (glued ds st) rt = ds ++ text st rt.
Proof.
  unfold text, stats_line, glued. cbn [s_transmitted s_received s_errors s_loss s_time].
  now repeat rewrite <- app_assoc.
Qed.

(** X2.  The search is not anchored at the start of a line: digits that
    stand immediately before the statistics line are read as the leading
    digits of the transmitted count. *)
Theorem leading_digits_join_count (pre ds : str) (st : stats) (rt : option rtt) :
  fields_ok st rt = true -> header pre -> all_digits ds = true ->
  exists r,
    __init__ (pre ++ ds ++ text st rt) = Return r /\
    transmitted r = digits_value (ds ++ s_transmitted st) /\
    received r = digits_value (s_received st) /\
    packet_loss r = decimal_value (s_loss st) / 100.
Proof.
  intros Hok Hh Hds. exists (denoted (glued ds st) rt). split.
  - rewrite <- glued_text. apply init_after_header; [|assumption].
    now apply glued_ok.
  - repeat split.
Qed.

Lemma leading_digits_join_count_witness :
  exists r,
    __init__ (lit "sent: " ++ lit "1" ++ text all_lost None) = Return r /\
    transmitted r = 13%Z.
Proof.
  destruct (leading_digits_join_count (lit "sent: ") (lit "1") all_lost None
              eq_refl eq_refl eq_refl) as (r & Hr & Ht & _).
  exists r. split; [exact Hr|exact Ht].
Defined.

(** X3.  An output that does not end with a newline, the empty output
    among them, is always rejected. *)
Theorem no_final_newline_rejected (output : str) :
  last output " "%char <> nl ->
  __init__ output = Raise (RuntimeError (nl :: output) None).
Proof.
  intros H. apply no_match_init. now apply no_match_last.
Qed.

Lemma no_final_newline_rejected_witness :
  last (@nil ascii) " "%char <> nl /\
  __init__ [] = Raise (RuntimeError [nl] None).
Proof.
  assert (H : last (@nil ascii) " "%char <> nl) by discriminate.
  split; [exact H|]. exact (no_final_newline_rejected [] H).
Defined.

End ParserMore.

(* ================================================================== *)
(** * Facts about [strip] and [split] *)
(* ================================================================== *)

Module WordsFacts.
Import Py Task Words.

Lemma split_from_end cur :
  split_from cur [] = match cur with [] => [] | _ => [rev cur] end.
Proof. reflexivity. Qed.

Lemma split_from_blank ws :
  blank ws = true -> forall cur, split_from cur ws = split_from cur [].
Proof.
  induction ws as [|c ws IH]; intros H cur; [reflexivity|].
  cbn [blank forallb] in H. apply andb_prop in H as [Hc Hws].
  cbn [split_from]. rewrite Hc, (IH Hws []).
  destruct cur; reflexivity.
Qed.

Lemma split_from_trailing ws :
  blank ws = true -> forall s cur, split_from cur (s ++ ws) = split_from cur s.
Proof.
  intros Hws. induction s as [|c s IH]; intros cur.
  - now apply split_from_blank.
  - cbn [app split_from]. destruct (is_space c).
    + rewrite (IH []). reflexivity.
    + apply IH.
Qed.

Lemma split_from_leading ws s :
  blank ws = true -> split_from [] (ws ++ s) = split_from [] s.
Proof.
  induction ws as [|c ws IH]; intros H; [reflexivity|].
  cbn [blank forallb] in H. apply andb_prop in H as [Hc Hws].
  cbn [app split_from]. rewrite Hc. now apply IH.
Qed.

Lemma split_from_word w :
  space_free w = true ->
  forall cur s, split_from cur (w ++ s) = split_from (rev w ++ cur) s.
Proof.
  induction w as [|c w IH]; intros H cur s; [reflexivity|].
  cbn [space_free forallb] in H. apply andb_prop in H as [Hc Hw].
  apply negb_true_iff in Hc.
  cbn [app split_from rev]. rewrite Hc, (IH Hw), <- app_assoc. reflexivity.
Qed.

(** The first word of a text. *)
Lemma split_first_word ws w rest :
  blank ws = true -> space_free w = true -> w <> [] -> word_end rest ->
  split (ws ++ w ++ rest) = w :: split rest.
Proof.
  intros Hws Hw Hne Hrest. unfold split.
  rewrite (split_from_leading _ _ Hws), (split_from_word _ Hw), app_nil_r.
  assert (Hrev : rev w <> []).
  { intros E. apply Hne. now rewrite <- (rev_involutive w), E. }
  destruct rest as [|c rest].
  - cbn [split_from]. destruct (rev w) eqn:E; [contradiction|].
    now rewrite <- E, rev_involutive.
  - cbn [word_end] in Hrest. cbn [split_from]. rewrite Hrest.
    destruct (rev w) eqn:E; [contradiction|].
    now rewrite <- E, rev_involutive.
Qed.

Lemma lstrip_blank s : exists ws, blank ws = true /\ s = ws ++ lstrip s.
Proof.
  induction s as [|c s IH]; [now exists []|].
  cbn [lstrip]. destruct (is_space c) eqn:Hc.
  - destruct IH as (ws & Hws & E). exists (c :: ws). split.
    + cbn [blank forallb]. now rewrite Hc.
    + cbn [app]. now rewrite <- E.
  - now exists [].
Qed.

Lemma blank_rev ws : blank ws = true -> blank (rev ws) = true.
Proof.
  unfold blank. rewrite !forallb_forall. intros H c Hc.
  apply H. now apply in_rev.
Qed.

(** [strip] changes nothing for [split]. *)
Lemma split_strip s : split (strip s) = split s.
Proof.
  unfold strip, split.
  destruct (lstrip_blank s) as (ws & Hws & E).
  destruct (lstrip_blank (rev (lstrip s))) as (ws' & Hws' & E').
  assert (Eu : lstrip s = rev (lstrip (rev (lstrip s))) ++ rev ws').
  { rewrite <- rev_app_distr, <- E'. now rewrite rev_involutive. }
  transitivity (split_from [] (lstrip s)).
  - transitivity (split_from [] (rev (lstrip (rev (lstrip s))) ++ rev ws')).
    + symmetry. apply split_from_trailing. now apply blank_rev.
    + now rewrite <- Eu.
  - transitivity (split_from [] (ws ++ lstrip s)).
    + symmetry. now apply split_from_leading.
    + now rewrite <- E.
Qed.

Lemma split_blank s : blank s = true -> split s = [].
Proof. intros H. unfold split. now rewrite (split_from_blank _ H). Qed.

End WordsFacts.

(* ================================================================== *)
(** * Further properties of the task *)
(* ================================================================== *)

Module TaskMore.
Import Py Parser Grammar Aio Task Words Samples Cases.
Import ParserFacts TaskFacts WordsFacts PoolFacts.

(** X4.  When [dig] exits with status 0, the answer is the first word of
    its output: leading white space is skipped and everything from the
    next white space on is ignored. *)
Theorem dig_first_word (env : list str -> result completed)
  (domain : str) (server : option str) (proc : completed) (ws w rest : str) :
  env (dig_cmd domain server) = Return proc ->
  returncode proc = 0%Z ->
  stdout proc = ws ++ w ++ rest ->
  blank ws = true -> space_free w = true -> w <> [] -> word_end rest ->
  run env (dig domain server) = Return (Some w).
Proof.
  intros Henv Hrc Hout Hws Hw Hne Hrest.
  unfold dig. cbn [run]. rewrite Henv, Hrc. cbn [Z.eqb negb].
  now rewrite split_strip, Hout, (split_first_word _ _ _ Hws Hw Hne Hrest).
Qed.

Lemma dig_first_word_witness :
  run (fun _ => Return {| returncode := 0; stdout := three_lines; stderr := [] |})
      (dig (lit "example.net") None)
  = Return (Some (lit "www.example.net.")).
Proof.
  apply (dig_first_word _ _ _ _ [] (lit "www.example.net.")
           ([nl] ++ lit "93.184.216.34" ++ [nl] ++ lit "93.184.216.35" ++ [nl]) eq_refl);
    try reflexivity.
  discriminate.
Defined.

(** X5.  When [dig] exits with status 0 and prints white space only, the
    task returns [None], and no [ping] is started. *)
Theorem no_record_skips_ping (env : list str -> result completed)
  (domain : str) (server provider : option str) (count : nat)
  (semaphore : option context_manager) (proc : completed) :
  env (dig_cmd domain server) = Return proc ->
  returncode proc = 0%Z -> blank (stdout proc) = true ->
  run env (get_results domain server provider count semaphore) = Return None /\
  trace env (get_results domain server provider count semaphore)
  = [dig_cmd domain server].
Proof.
  intros Henv Hrc Hblank.
  assert (Hdig : run env (dig domain server) = Return None).
  { unfold dig. cbn [run]. rewrite Henv, Hrc. cbn [Z.eqb negb].
    now rewrite split_strip, (split_blank _ Hblank). }
  split.
  - now rewrite run_get_results, Hdig.
  - unfold get_results. now rewrite trace_async_with, trace_await, trace_dig, Hdig.
Qed.

Lemma no_record_skips_ping_witness :
  trace no_record
        (get_results (lit "example.invalid") (Some (lit "8.8.8.8"))
                     (Some (lit "google")) 3 (Some Semaphore))
  = [[lit "dig"; lit "+short"; lit "@8.8.8.8"; lit "example.invalid"]].
Proof.
  exact (proj2 (no_record_skips_ping no_record (lit "example.invalid")
                  (Some (lit "8.8.8.8")) (Some (lit "google")) 3 (Some Semaphore)
                  _ eq_refl eq_refl eq_refl)).
Defined.

(** X6.  Once its process has ended with a standard output that is text,
    [ping] raises exactly when no part of that output, read to its end, is
    a text of the grammar; and when it returns, the output ends with a
    text of the grammar and the result is what that text denotes.  The
    exit status plays no part. *)
Theorem ping_raises_iff_unparsable (env : list str -> result completed)
  (addr : str) (count : nat) (proc : completed) :
  env (ping_cmd addr count) = Return proc ->
  (no_match (stdout proc) <-> exists e, run env (ping addr count) = Raise e) /\
  (forall r,
     run env (ping addr count) = Return r ->
     exists pre st rt,
       fields_ok st rt = true /\ stdout proc = pre ++ text st rt /\
       r = denoted st rt).
Proof.
  intros Henv. split; [split|].
  - intros Hno. eexists.
    exact (ping_parse_error env addr count proc _ Henv (no_match_init _ Hno)).
  - intros [e He]. unfold ping in He. cbn [run] in He. rewrite Henv in He.
    destruct (__init__ (stdout proc)) as [r|e'] eqn:E; [discriminate|].
    now apply init_Raise_no_match in E.
  - intros r Hr. unfold ping in Hr. cbn [run] in Hr. rewrite Henv in Hr.
    destruct (__init__ (stdout proc)) as [r'|e'] eqn:E.
    + cbn [run] in Hr. injection Hr as <-. now apply init_Return_inv.
    + destruct (is_Exception e'); discriminate.
Qed.

Lemma ping_raises_iff_unparsable_witness :
  no_match [nl] /\
  exists e, run unparsable_ping (ping (lit "93.184.216.34") 3) = Raise e.
Proof.
  assert (H : exists e, run unparsable_ping (ping (lit "93.184.216.34") 3) = Raise e).
  { eexists. reflexivity. }
  pose proof (ping_raises_iff_unparsable unparsable_ping (lit "93.184.216.34") 3
                _ eq_refl) as [[Hraise Hno] _].
  split; [exact (Hno H)|exact (Hraise (Hno H))].
Defined.

(** X7.  A whole measurement: when [dig] gives an address and the output
    of [ping] ends, after any header, with the two lines of the grammar,
    the task returns the result those lines denote, whatever the exit
    status of [ping]. *)
Theorem measurement_succeeds (env : list str -> result completed)
  (domain addr : str) (server provider : option str) (count : nat)
  (semaphore : option context_manager) (proc : completed)
  (pre : str) (st : stats) (rt : option rtt) :
  run env (dig domain server) = Return (Some addr) ->
  env (ping_cmd addr count) = Return proc ->
  stdout proc = pre ++ text st rt -> header pre -> fields_ok st rt = true ->
  run env (get_results domain server provider count semaphore)
  = Return (Some (denoted st rt)).
Proof.
  intros Hdig Henv Hout Hh Hok.
  rewrite run_get_results, Hdig. unfold ping. cbn [run].
  now rewrite Henv, Hout, (init_after_header _ _ _ Hok Hh).
Qed.

Lemma measurement_succeeds_witness :
  run lost_ping
      (get_results (lit "example.com") (Some (lit "1.1.1.1"))
                   (Some (lit "cloudflare")) 3 (Some Semaphore))
  = Return (Some (denoted all_lost None)) /\
  min (denoted all_lost None) = None.
Proof.
  split; [|reflexivity].
  exact (measurement_succeeds lost_ping (lit "example.com") (lit "93.184.216.34")
           (Some (lit "1.1.1.1")) (Some (lit "cloudflare")) 3 (Some Semaphore)
           _ ping_header all_lost None eq_refl eq_refl eq_refl eq_refl eq_refl).
Defined.

(** X8.  Every [Exception] that leaves the task carries its stage: it is
    the [RuntimeError] with the [Dig error] message around what [dig]
    raised, or the one with the [Ping error] message, for the address that
    [dig] gave, around what [ping] raised. *)
Theorem raised_exceptions_are_tagged (env : list str -> result completed)
  (domain : str) (server provider : option str) (count : nat)
  (semaphore : option context_manager) (e : exn) :
  run env (get_results domain server provider count semaphore) = Raise e ->
  is_Exception e = true ->
  (exists cause,
     run env (dig domain server) = Raise cause /\
     e = RuntimeError (dig_error domain provider server) (Some cause)) \/
  (exists addr cause,
     run env (dig domain server) = Return (Some addr) /\
     run env (ping addr count) = Raise cause /\
     e = RuntimeError (ping_error domain addr provider server) (Some cause)).
Proof.
  rewrite run_get_results. intros H He.
  destruct (run env (dig domain server)) as [[addr|]|cause] eqn:Hdig.
  - destruct (run env (ping addr count)) as [r|cause] eqn:Hping; [discriminate|].
    rewrite run_handlers in H. right. exists addr, cause.
    split; [reflexivity|]. split; [exact Hping|].
    destruct (is_CancelledError cause) eqn:Hc.
    + injection H as <-. destruct cause; discriminate.
    + destruct (is_Exception cause) eqn:Hx.
      * now injection H as <-.
      * injection H as <-. congruence.
  - discriminate.
  - rewrite run_handlers in H. left. exists cause. split; [reflexivity|].
    destruct (is_CancelledError cause) eqn:Hc.
    + injection H as <-. destruct cause; discriminate.
    + destruct (is_Exception cause) eqn:Hx.
      * now injection H as <-.
      * injection H as <-. congruence.
Qed.

Lemma raised_exceptions_are_tagged_witness :
  exists cause,
    run failing_dig (dig (lit "example.com") (Some (lit "1.1.1.1"))) = Raise cause /\
    cause = RuntimeError (lit "connection timed out") None.
Proof.
  destruct (raised_exceptions_are_tagged failing_dig (lit "example.com")
              (Some (lit "1.1.1.1")) (Some (lit "cloudflare")) 3 (Some Semaphore)
              _ eq_refl eq_refl) as [(cause & Hc & He)|(addr & cause & Hd & _)].
  - exists cause. split; [exact Hc|]. cbv in Hc. now injection Hc as <-.
  - cbv in Hd. discriminate.
Defined.

Lemma processes_started_aux (env : list str -> result completed)
  (domain : str) (server provider : option str) (count : nat)
  (semaphore : option context_manager) :
  trace env (get_results domain server provider count semaphore)
  = match run env (dig domain server) with
    | Return (Some addr) => [dig_cmd domain server; ping_cmd addr count]
    | _ => [dig_cmd domain server]
    end.
Proof.
  unfold get_results.
  rewrite trace_async_with, trace_await, trace_dig.
  destruct (run env (dig domain server)) as [[addr|]|e].
  - rewrite trace_await, trace_ping. cbn [app].
    destruct (run env (ping addr count)) as [r|e]; [reflexivity|].
    unfold handlers. destruct (is_CancelledError e), (is_Exception e); reflexivity.
  - reflexivity.
  - cbn [app]. unfold handlers.
    destruct (is_CancelledError e), (is_Exception e); reflexivity.
Qed.

(** X9.  The processes of a task: [dig] is started once, first; [ping] is
    started once after it when [dig] has given an address, and not at all
    otherwise.  Nothing is retried. *)
Theorem processes_started (env : list str -> result completed)
  (domain : str) (server provider : option str) (count : nat)
  (semaphore : option context_manager) :
  trace env (get_results domain server provider count semaphore)
  = match run env (dig domain server) with
    | Return (Some addr) => [dig_cmd domain server; ping_cmd addr count]
    | _ => [dig_cmd domain server]
    end.
Proof. apply processes_started_aux. Qed.

(** X10.  The semaphore is transparent: with or without it the task ends
    the same way and starts the same processes; and without it the task
    never waits for a slot. *)
Theorem semaphore_is_transparent (env : list str -> result completed)
  (domain : str) (server provider : option str) (count : nat) :
  run env (get_results domain server provider count (Some Semaphore))
  = run env (get_results domain server provider count None) /\
  trace env (get_results domain server provider count (Some Semaphore))
  = trace env (get_results domain server provider count None) /\
  Pool.ungated (get_results domain server provider count None).
Proof.
  split; [|split].
  - now rewrite !run_get_results.
  - now rewrite !processes_started_aux.
  - unfold get_results. cbn [async_with].
    apply ungated_await; [apply ungated_dig|].
    intros [[addr|]|e].
    + apply ungated_await; [apply ungated_ping|].
      intros [results|e]; [exact I|apply ungated_handlers].
    + exact I.
    + apply ungated_handlers.
Qed.

End TaskMore.

(* ================================================================== *)
(** * Further properties of the aggregation *)
(* ================================================================== *)

Module AggregateMore.
Import Py Parser Aio Task Batch Dict Samples BatchFacts AggregateFacts.

Lemma str_eqb_eq a b : str_eqb a b = true <-> a = b.
Proof.
  unfold str_eqb. destruct (list_eq_dec ascii_dec a b); split; congruence.
Qed.

Lemma str_eqb_refl a : str_eqb a a = true.
Proof. now apply str_eqb_eq. Qed.

Lemma str_eqb_neq a b : a <> b -> str_eqb a b = false.
Proof.
  intros H. destruct (str_eqb a b) eqn:E; [|reflexivity].
  apply str_eqb_eq in E. contradiction.
Qed.

Section Update.
Context {V : Type}.
Variables (default : V) (f : V -> V).

Lemma get_update_same (d : list (str * V)) k :
  get (update default f d k) k
  = Some (f match get d k with Some v => v | None => default end).
Proof.
  induction d as [|[k' v] d IH]; cbn [update get].
  - now rewrite str_eqb_refl.
  - destruct (str_eqb k' k) eqn:E; cbn [get]; rewrite E; [reflexivity|apply IH].
Qed.

Lemma get_update_other (d : list (str * V)) k k' :
  k <> k' -> get (update default f d k) k' = get d k'.
Proof.
  intros Hk. induction d as [|[k0 v] d IH]; cbn [update get].
  - now rewrite str_eqb_neq.
  - destruct (str_eqb k0 k) eqn:E; cbn [get].
    + apply str_eqb_eq in E. subst k0. now rewrite (str_eqb_neq _ _ Hk).
    + now rewrite IH.
Qed.

Lemma keys_update (d : list (str * V)) k :
  map fst (update default f d k)
  = if existsb (fun k' => str_eqb k' k) (map fst d)
    then map fst d else map fst d ++ [k].
Proof.
  induction d as [|[k0 v] d IH]; cbn [update map fst existsb app].
  - reflexivity.
  - destruct (str_eqb k0 k) eqn:E; cbn [map fst orb].
    + reflexivity.
    + rewrite IH. destruct (existsb _ (map fst d)); reflexivity.
Qed.

End Update.

Lemma mins_at_record by_provider p' d' m domain provider :
  mins_at (record_min by_provider p' d' m) domain provider
  = mins_at by_provider domain provider
    ++ (if str_eqb d' domain && str_eqb p' provider then [m] else []).
Proof.
  unfold mins_at, record_min.
  destruct (str_eqb d' domain) eqn:Ed.
  - apply str_eqb_eq in Ed. subst d'. rewrite get_update_same.
    destruct (str_eqb p' provider) eqn:Ep.
    + apply str_eqb_eq in Ep. subst p'. rewrite get_update_same.
      destruct (get by_provider domain) as [d|]; [|reflexivity].
      destruct (get d provider); reflexivity.
    + assert (Hne : p' <> provider).
      { intros ->. now rewrite str_eqb_refl in Ep. }
      rewrite (get_update_other _ _ _ _ _ Hne), app_nil_r.
      destruct (get by_provider domain) as [d|]; reflexivity.
  - assert (Hne : d' <> domain).
    { intros ->. now rewrite str_eqb_refl in Ed. }
    now rewrite (get_update_other _ _ _ _ _ Hne), app_nil_r.
Qed.

Lemma mins_at_fold items : forall acc domain provider,
  mins_at (fold_left (fun acc '(provider, domain, _min) =>
                        record_min acc provider domain _min) items acc)
          domain provider
  = mins_at acc domain provider ++ mins_for items domain provider.
Proof.
  induction items as [|[[p d] m] items IH]; intros acc domain provider.
  - unfold mins_for. cbn. now rewrite app_nil_r.
  - cbn [fold_left]. rewrite IH, mins_at_record, <- app_assoc. f_equal.
    unfold mins_for. cbn [filter].
    destruct (str_eqb d domain && str_eqb p provider); reflexivity.
Qed.

Lemma keys_fold items : forall acc,
  map fst (fold_left (fun acc '(provider, domain, _min) =>
                        record_min acc provider domain _min) items acc)
  = fold_left (fun seen k => if existsb (fun k' => str_eqb k' k) seen
                             then seen else seen ++ [k])
              (map (fun i => snd (fst i)) items) (map fst acc).
Proof.
  induction items as [|[[p d] m] items IH]; intros acc; cbn [fold_left map].
  - reflexivity.
  - rewrite IH. unfold record_min. now rewrite keys_update.
Qed.

Lemma domains_zip3 {X W} (xs : list X) : forall (ds : list str) (ws : list W),
  List.length ds = List.length xs -> List.length ws = List.length xs ->
  map (fun i => snd (fst i)) (zip3 xs ds ws) = ds.
Proof.
  induction xs as [|x xs IH]; intros [|d ds] [|w ws]; cbn; try discriminate; auto.
  intros [= H1] [= H2]. f_equal. now apply IH.
Qed.

Lemma get_map_values {V W} (g : V -> W) (d : list (str * V)) k :
  get (map (fun '(key, v) => (key, g v)) d) k = option_map g (get d k).
Proof.
  induction d as [|[k' v] d IH]; cbn [map get]; [reflexivity|].
  destruct (str_eqb k' k); [reflexivity|apply IH].
Qed.

Lemma cell_at_aggregate providers domains results domain provider :
  cell_at (aggregate providers domains results) domain provider
  = match get (group_mins providers domains (mins_of results)) domain with
    | Some d => option_map cell_of (get d provider)
    | None => None
    end.
Proof.
  unfold cell_at, aggregate.
  rewrite (get_map_values
             (fun d => map (fun '(key, mins) => (key, cell_of mins)) d)).
  destruct (get _ domain) as [d|]; cbn [option_map]; [|reflexivity].
  apply get_map_values.
Qed.

Lemma mins_at_group providers domains mins domain provider :
  mins_at (group_mins providers domains mins) domain provider
  = mins_for (zip3 providers domains mins) domain provider.
Proof. unfold group_mins. now rewrite mins_at_fold. Qed.

(** X11.  Grouping: the cell of a domain and a provider is computed from
    the minima of exactly the outcomes zipped with that domain and that
    provider, in task order; and there is such a cell as soon as there is
    one such outcome, whatever it is. *)
Theorem cell_groups_its_own_outcomes (providers domains : list str)
  (results : list (option PingResults)) (domain provider : str) :
  let items := zip3 providers domains (mins_of results) in
  (forall c,
     cell_at (aggregate providers domains results) domain provider = Some c ->
     c = cell_of (mins_for items domain provider)) /\
  (mins_for items domain provider <> [] ->
   cell_at (aggregate providers domains results) domain provider
   = Some (cell_of (mins_for items domain provider))).
Proof.
  intros items. rewrite cell_at_aggregate.
  pose proof (mins_at_group providers domains (mins_of results) domain provider) as H.
  fold items in H. unfold mins_at in H.
  destruct (get (group_mins providers domains (mins_of results)) domain) as [d|].
  - destruct (get d provider) as [mins|]; cbn [option_map].
    + rewrite <- H. split; [now intros c [= <-]|reflexivity].
    + rewrite <- H. split; [discriminate|contradiction].
  - rewrite <- H. split; [discriminate|contradiction].
Qed.

Lemma cell_groups_its_own_outcomes_witness :
  cell_at (aggregate [lit "A"; lit "B"; lit "A"]
                     [lit "x.org"; lit "x.org"; lit "x.org"]
                     [None; None; None])
          (lit "x.org") (lit "A")
  = Some (cell_of [None; None]).
Proof.
  refine (proj2 (cell_groups_its_own_outcomes
                   [lit "A"; lit "B"; lit "A"]
                   [lit "x.org"; lit "x.org"; lit "x.org"]
                   [None; None; None] (lit "x.org") (lit "A")) _).
  discriminate.
Defined.

(** X12.  The rows of the table are the domains of the tasks, each once,
    in the order in which they first occur. *)
Theorem rows_in_order_of_first_occurrence (providers domains : list str)
  (results : list (option PingResults)) :
  List.length domains = List.length providers ->
  List.length results = List.length providers ->
  map fst (aggregate providers domains results) = first_seen domains.
Proof.
  intros Hd Hr. unfold aggregate, group_mins, first_seen.
  rewrite map_map.
  rewrite (map_ext (fun x => fst (let '(domain, d) := x in
                       (domain, map (fun '(key, mins) => (key, cell_of mins)) d)))
                   fst) by (now intros [domain d]).
  rewrite keys_fold. cbn [map].
  rewrite domains_zip3; [reflexivity|assumption|].
  unfold mins_of. now rewrite length_map.
Qed.

Lemma rows_in_order_of_first_occurrence_witness :
  map fst (aggregate [lit "A"; lit "B"; lit "A"; lit "B"]
                     [lit "y.org"; lit "y.org"; lit "x.org"; lit "y.org"]
                     [None; None; None; None])
  = [lit "y.org"; lit "x.org"].
Proof.
  exact (rows_in_order_of_first_occurrence
           [lit "A"; lit "B"; lit "A"; lit "B"]
           [lit "y.org"; lit "y.org"; lit "x.org"; lit "y.org"]
           [None; None; None; None] eq_refl eq_refl).
Defined.

End AggregateMore.

(* ================================================================== *)
(** * Further properties of the cells *)
(* ================================================================== *)

Module CellMore.
Import Py Parser Aio Task Batch Dict Samples BatchFacts AggregateFacts AggregateMore.

Lemma sum_from_proper l : forall a b,
  a == b -> fold_left add_min l a == fold_left add_min l b.
Proof.
  induction l as [|[q|] l IH]; intros a b Hab; cbn [fold_left add_min].
  - assumption.
  - apply IH. now rewrite Hab.
  - now apply IH.
Qed.

Lemma sum_from_filter l : forall a,
  fold_left add_min (filter truthy l) a == fold_left add_min l a.
Proof.
  induction l as [|[q|] l IH]; intros a; cbn [filter truthy].
  - reflexivity.
  - destruct (Qeq_bool q 0) eqn:E; cbn [negb fold_left add_min].
    + apply Qeq_bool_iff in E. rewrite IH. apply sum_from_proper.
      rewrite E. ring.
    + apply IH.
  - cbn [fold_left add_min]. apply IH.
Qed.

(** A minimum of [0.0] adds nothing to the sum. *)
Lemma sum_filter_truthy mins : sum (filter truthy mins) == sum mins.
Proof. apply sum_from_filter. Qed.

(** X14.  What a cell holds for any list of minima: the usable count is at
    most the attempted count; there is no mean exactly when nothing is
    usable; and otherwise the mean is the sum of all present minima
    divided by the usable count, the number of present minima that are
    not zero. *)
Theorem cell_mean (mins : list (option Q)) :
  (usable (cell_of mins) <= attempted (cell_of mins))%nat /\
  match mean (cell_of mins) with
  | NoData => usable (cell_of mins) = 0%nat
  | Mean q =>
      (0 < usable (cell_of mins))%nat /\
      q == sum mins / inject_Z (Z.of_nat (usable (cell_of mins)))
  end.
Proof.
  unfold cell_of. cbn [usable attempted mean].
  split; [apply filter_length_le|].
  destruct (List.length (filter truthy mins)) as [|n] eqn:E; [reflexivity|].
  split; [lia|].
  apply Qdiv_comp; [apply sum_filter_truthy|reflexivity].
Qed.

(** ** How many outcomes a cell of [main] counts *)

Lemma length_mins_for_jobs {X} (js : list (str * str * X)) d p :
  forall ms : list (option Q),
  List.length ms = List.length js ->
  List.length (mins_for (zip3 (providers_of js) (domains_of js) ms) d p)
  = List.length (filter (fun j => str_eqb (snd (fst j)) d && str_eqb (fst (fst j)) p) js).
Proof.
  unfold mins_for, providers_of, domains_of.
  induction js as [|[[p' d'] x] js IH]; intros [|m ms] H; try discriminate.
  - reflexivity.
  - injection H as H. cbn [map zip3 filter fst snd].
    specialize (IH ms H). rewrite length_map in IH.
    destruct (str_eqb d' d && str_eqb p' p); cbn [map List.length];
      rewrite ?length_map; now rewrite IH.
Qed.

Lemma count_jobs_of_domain (d' : str) (pairs : list (str * str)) d p :
  List.length
    (filter (fun j : str * str * coro (option PingResults) =>
               str_eqb (snd (fst j)) d && str_eqb (fst (fst j)) p)
       (map (fun '(provider, server) =>
               (provider, d',
                get_results d' (Some server) (Some provider) best_of (Some Semaphore)))
            pairs))
  = ((if str_eqb d' d then 1 else 0)
     * List.length (filter (fun pr => str_eqb (fst pr) p) pairs))%nat.
Proof.
  induction pairs as [|[provider server] pairs IH]; cbn [map filter fst snd].
  - destruct (str_eqb d' d); reflexivity.
  - destruct (str_eqb d' d); cbn [andb] in *;
      [destruct (str_eqb provider p)|];
      cbn [List.length Nat.mul Nat.add] in *; rewrite IH; lia.
Qed.

Lemma count_jobs domains pairs d p :
  List.length
    (filter (fun j => str_eqb (snd (fst j)) d && str_eqb (fst (fst j)) p)
            (jobs domains pairs))
  = (List.length (filter (fun x => str_eqb x d) (firstn num_domains domains))
     * List.length (filter (fun pr => str_eqb (fst pr) p) pairs))%nat.
Proof.
  unfold jobs. induction (firstn num_domains domains) as [|d' ds IH].
  - reflexivity.
  - cbn [flat_map filter]. rewrite filter_app, length_app, IH, count_jobs_of_domain.
    destruct (str_eqb d' d); cbn [List.length Nat.mul Nat.add]; lia.
Qed.

(** X15.  In the table of [main], the cell of a domain and a provider
    counts one attempt for every address of the provider in the
    assignment, times the number of times the domain is listed. *)
Theorem attempts_per_cell (domains : list str) (pairs : list (str * str))
  (results : list (option PingResults)) (d p : str) (c : cell) :
  let js := jobs domains pairs in
  List.length results = List.length js ->
  cell_at (aggregate (providers_of js) (domains_of js) results) d p = Some c ->
  attempted c
  = (List.length (filter (fun x => str_eqb x d) (firstn num_domains domains))
     * List.length (filter (fun pr => str_eqb (fst pr) p) pairs))%nat.
Proof.
  intros js Hlen Hc. rewrite cell_at_aggregate in Hc.
  pose proof (mins_at_group (providers_of js) (domains_of js) (mins_of results) d p) as H.
  unfold mins_at in H.
  destruct (get (group_mins (providers_of js) (domains_of js) (mins_of results)) d)
    as [inner|]; [|discriminate].
  destruct (get inner p) as [mins|]; [|discriminate].
  injection Hc as <-. cbn [cell_of attempted]. rewrite H.
  rewrite length_mins_for_jobs by (unfold mins_of; now rewrite length_map).
  apply count_jobs.
Qed.

Lemma attempts_per_cell_witness :
  exists c,
    cell_at (aggregate
               (providers_of (jobs [lit "x.org"] (index_major SERVERS)))
               (domains_of (jobs [lit "x.org"] (index_major SERVERS)))
               [None; None; None; None])
            (lit "x.org") (lit "google") = Some c /\
    attempted c = 2%nat.
Proof.
  eexists. split; [reflexivity|].
  exact (attempts_per_cell [lit "x.org"] (index_major SERVERS)
           [None; None; None; None] (lit "x.org") (lit "google") _ eq_refl eq_refl).
Defined.

End CellMore.

(* ================================================================== *)
(** * Further properties of the tasks sharing the semaphore *)
(* ================================================================== *)

Module PoolMore.
Import Py Parser Aio Task Batch Pool PoolRun Samples PoolFacts.

Section Slots.
Context {A : Type}.

Lemma finished_not_holding n0 (s : state A) t :
  invariant n0 s -> In t (tasks s) -> finished t = true -> fst t = false.
Proof.
  intros [_ Hall] Hin Hf. rewrite Forall_forall in Hall.
  specialize (Hall t Hin). destruct t as [held c]. unfold finished in Hf.
  cbn [fst snd] in *. destruct c; try discriminate. exact Hall.
Qed.

Lemma all_finished_no_holder n0 (s : state A) :
  invariant n0 s -> forallb finished (tasks s) = true -> holders s = 0%nat.
Proof.
  intros Hinv Hall. unfold holders.
  assert (H : forall t, In t (tasks s) -> fst t = false).
  { intros t Hin. apply (finished_not_holding n0 s t Hinv Hin).
    rewrite forallb_forall in Hall. now apply Hall. }
  clear Hall. induction (tasks s) as [|t ts IH]; [reflexivity|].
  cbn [filter]. rewrite (H t (or_introl eq_refl)).
  apply IH. intros t' Ht'. apply H. now right.
Qed.

(** A task inside [async with] is waiting for a process or about to
    release. *)
Lemma holder_can_advance n (before after : list (bool * coro A)) c :
  gated true c ->
  exists s', advance {| value := n; tasks := before ++ (true, c) :: after |} s'.
Proof.
  destruct c as [r|cmd k|k|k]; cbn [gated].
  - discriminate.
  - intros _. eexists. apply (advance_exec n before true cmd k (Raise CancelledError)).
  - intros [H _]. discriminate.
  - intros _. eexists. apply advance_release.
Qed.

Lemma some_holder (ts : list (bool * coro A)) :
  (0 < List.length (filter fst ts))%nat ->
  exists before c after, ts = before ++ (true, c) :: after.
Proof.
  induction ts as [|[held c] ts IH]; cbn [filter fst List.length]; [lia|].
  destruct held.
  - intros _. now exists [], c, ts.
  - intros H. destruct (IH H) as (before & c' & after & ->).
    now exists ((false, c) :: before), c', after.
Qed.

(** Without cancellations the batch cannot get stuck. *)
Lemma invariant_progress n0 (s : state A) :
  (0 < n0)%nat -> invariant n0 s ->
  existsb (fun t => negb (finished t)) (tasks s) = true ->
  exists s', advance s s'.
Proof.
  intros Hn0 Hinv Hex. apply existsb_exists in Hex as ([held c] & Hin & Hnf).
  destruct s as [v ts]. cbn [tasks] in *.
  pose proof Hinv as [Hsum Hall]. cbn [tasks value] in *.
  rewrite Forall_forall in Hall.
  pose proof (Hall _ Hin) as Hg. cbn [fst snd] in Hg.
  apply in_split in Hin as (before & after & ->).
  destruct c as [r|cmd k|k|k].
  - discriminate.
  - eexists. apply (advance_exec v before held cmd k (Raise CancelledError)).
  - destruct Hg as (-> & _). destruct v as [|v].
    + unfold holders in Hsum. cbn [tasks] in Hsum.
      destruct (some_holder (before ++ (false, Acquire k) :: after))
        as (b' & c' & a' & E); [lia|].
      rewrite E. apply holder_can_advance.
      specialize (Hall (true, c')). cbn [fst snd] in Hall. apply Hall.
      rewrite E. apply in_elt.
    + eexists. apply advance_acquire.
  - eexists. apply advance_release.
Qed.

(** ** Counting the steps *)

Lemma steps_bound N (s0 : state A) :
  (exists bs, Forall2 (fun b t => within b (snd t)) bs (tasks s0) /\
              (list_sum bs <= N)%nat) ->
  forall n s, steps n s0 s ->
  exists bs, Forall2 (fun b t => within b (snd t)) bs (tasks s) /\
             (n + list_sum bs <= N)%nat.
Proof.
  intros H0 n s Hsteps. induction Hsteps as [s|n s s1 s2 Hsteps IH Hstep].
  - destruct H0 as (bs & HF & Hle). exists bs. split; [assumption|lia].
  - destruct (IH H0) as (bs & HF & Hle). clear IH H0.
    assert (Hone : forall v before (held held' : bool) (c c' : coro A) after,
      tasks s1 = before ++ (held, c) :: after ->
      (forall b, within b c -> exists m, b = S m /\ within m c') ->
      exists bs', Forall2 (fun b t => within b (snd t)) bs'
                          (tasks {| value := v;
                                    tasks := before ++ (held', c') :: after |}) /\
                  (S n + list_sum bs' <= N)%nat).
    { intros v before held held' c c' after Et Hc. rewrite Et in HF.
      apply Forall2_app_inv_r in HF as (bs1 & bs2 & HF1 & HF2 & ->).
      inversion HF2 as [|b t bs3 ts Hb HF3]; subst. cbn [snd] in Hb.
      destruct (Hc b Hb) as (m & -> & Hm).
      exists (bs1 ++ m :: bs3). split.
      - cbn [tasks]. apply Forall2_app; [assumption|]. now constructor.
      - rewrite list_sum_app in Hle |- *. simpl in Hle |- *. lia. }
    destruct Hstep as [v before k after|v before k after
                      |v before held cmd k out after|v before held k after].
    + apply (Hone _ before false true (Acquire k) _ after eq_refl).
      intros [|m] Hb; [contradiction|]. exists m. split; [reflexivity|apply Hb].
    + apply (Hone _ before false false (Acquire k) _ after eq_refl).
      intros [|m] Hb; [contradiction|]. exists m. split; [reflexivity|apply Hb].
    + apply (Hone _ before held held (Exec cmd k) _ after eq_refl).
      intros [|m] Hb; [contradiction|]. exists m. split; [reflexivity|apply Hb].
    + apply (Hone _ before held false (Release k) _ after eq_refl).
      intros [|m] Hb; [contradiction|]. exists m. split; [reflexivity|apply Hb].
Qed.

Lemma steps_reachable (s0 : state A) n s : steps n s0 s -> reachable s0 s.
Proof.
  induction 1 as [s|n s s1 s2 Hsteps IH Hstep]; [constructor|].
  now apply reach_step with s1.
Qed.

End Slots.

Lemma within_le {A} (c : coro A) : forall n m,
  (n <= m)%nat -> within n c -> within m c.
Proof.
  induction c as [r|cmd k IH|k IH|k IH]; intros n m Hnm H; cbn [within] in *.
  - exact I.
  - destruct n as [|n]; [contradiction|]. destruct m as [|m]; [lia|].
    intros out. apply (IH out n); [lia|apply H].
  - destruct n as [|n]; [contradiction|]. destruct m as [|m]; [lia|].
    intros r. apply (IH r n); [lia|apply H].
  - destruct n as [|n]; [contradiction|]. destruct m as [|m]; [lia|].
    apply (IH n); [lia|apply H].
Qed.

Lemma within_await {A B} (c : coro A) (k : result A -> coro B) b : forall a,
  within a c -> (forall r, within b (k r)) -> within (a + b) (await c k).
Proof.
  induction c as [r|cmd f IH|f IH|c IH]; intros a Ha Hk; cbn [within await] in *.
  - apply within_le with b; [lia|apply Hk].
  - destruct a as [|a]; [contradiction|]. cbn [Nat.add].
    intros out. apply IH; [apply Ha|assumption].
  - destruct a as [|a]; [contradiction|]. cbn [Nat.add].
    intros r. apply IH; [apply Ha|assumption].
  - destruct a as [|a]; [contradiction|]. cbn [Nat.add].
    apply IH; assumption.
Qed.

Lemma within_handlers {A} msg e : within 0 (@handlers A msg e).
Proof.
  unfold handlers. destruct (is_CancelledError e), (is_Exception e); exact I.
Qed.

Lemma within_dig domain server : within 1 (dig domain server).
Proof.
  unfold dig. cbn [within]. intros [proc|e]; [|exact I].
  destruct (negb (returncode proc =? 0)%Z); [exact I|].
  destruct (split (strip (stdout proc))); exact I.
Qed.

Lemma within_ping addr count : within 1 (ping addr count).
Proof.
  unfold ping. cbn [within]. intros [proc|e]; [|exact I].
  destruct (__init__ (stdout proc)) as [r|e]; [exact I|].
  destruct (is_Exception e); exact I.
Qed.

(** A task is resumed at most four times: with the semaphore, after
    [dig], after [ping], and for the release. *)
Lemma within_get_results domain server provider count semaphore :
  within 4 (get_results domain server provider count semaphore).
Proof.
  assert (Hbody : within 2
    (await (dig domain server) (fun r =>
       match r with
       | Raise e => handlers (dig_error domain provider server) e
       | Return None => Done (Return None)
       | Return (Some addr) =>
           await (ping addr count) (fun r' =>
             match r' with
             | Raise e => handlers (ping_error domain addr provider server) e
             | Return results => Done (Return (Some results))
             end)
       end))).
  { apply (within_await _ _ 1 1); [apply within_dig|].
    intros [[addr|]|e].
    - apply (within_await _ _ 0 1); [apply within_ping|].
      intros [results|e]; [exact I|apply within_handlers].
    - exact I.
    - apply within_le with 0%nat; [lia|apply within_handlers]. }
  unfold get_results. destruct semaphore as [[|]|]; cbn [async_with].
  - cbn [within]. intros [u|e]; [|exact I].
    apply (within_await _ _ 1 2); [exact Hbody|]. intros out. exact I.
  - apply within_le with 2%nat; [lia|exact Hbody].
  - apply within_le with 2%nat; [lia|exact Hbody].
Qed.

End PoolMore.

Module PoolRunProps.
Import Py Parser Aio Task Batch Pool PoolRun Samples Runs PoolFacts PoolMore.

(** X16.  No slot is lost: in every reachable state of the batch a task
    that has returned or raised, in whatever way, is outside
    [async with]; and once every task has finished the counter of the
    semaphore is back at 50. *)
Theorem slots_are_returned (servers : list (str * list str))
  (domains : list str) (s : state (option PingResults)) :
  reachable
    (init semaphore_value (awaitables_of (jobs domains (index_major servers)))) s ->
  (forall t, In t (tasks s) -> finished t = true -> fst t = false) /\
  (forallb finished (tasks s) = true -> value s = 50%nat).
Proof.
  intros Hr.
  assert (Hinv : invariant semaphore_value s).
  { eapply invariant_reachable; [|exact Hr].
    apply invariant_init, gated_jobs. }
  split.
  - intros t. now apply finished_not_holding with semaphore_value.
  - intros Hall. pose proof (all_finished_no_holder _ _ Hinv Hall) as H0.
    destruct Hinv as [Hsum _]. unfold semaphore_value in Hsum. lia.
Qed.

Lemma slots_are_returned_witness :
  reachable
    (init semaphore_value (awaitables_of (jobs two_domains (index_major one_server))))
    all_finished /\
  forallb finished (tasks all_finished) = true /\
  (forall t, In t (tasks all_finished) -> finished t = true -> fst t = false) /\
  value all_finished = 50%nat.
Proof.
  assert (H : reachable
                (init semaphore_value
                   (awaitables_of (jobs two_domains (index_major one_server))))
                all_finished).
  { apply reach_step with first_released;
      [apply reach_step with dig_failed;
         [apply reach_step with first_in_dig;
            [eapply reach_step; [apply reach_init|]|]|]|].
    - exact (step_acquire 49 [] _ [_]).
    - exact (step_exec 49 [] true _ _ (failing_dig []) [_]).
    - exact (step_release 49 [] true _ [_]).
    - exact (step_cancel_acquire 50 [_] _ []). }
  split; [exact H|]. split; [reflexivity|].
  destruct (slots_are_returned _ _ _ H) as [Hout Hvalue].
  split; [exact Hout|exact (Hvalue eq_refl)].
Defined.

(** X17.  The batch cannot get stuck: in every reachable state in which
    some task has not finished, the event loop can resume a task without
    cancelling anything (a slot is free for a waiting task, or a task
    inside [async with] is waiting for its process or about to release). *)
Theorem batch_never_stuck (servers : list (str * list str))
  (domains : list str) (s : state (option PingResults)) :
  reachable
    (init semaphore_value (awaitables_of (jobs domains (index_major servers)))) s ->
  existsb (fun t => negb (finished t)) (tasks s) = true ->
  exists s', advance s s'.
Proof.
  intros Hr Hex. apply (invariant_progress semaphore_value).
  - unfold semaphore_value. lia.
  - eapply invariant_reachable; [|exact Hr].
    apply invariant_init, gated_jobs.
  - exact Hex.
Qed.

Lemma batch_never_stuck_witness :
  existsb (fun t => negb (finished t)) (tasks first_in_dig) = true /\
  exists s', advance first_in_dig s'.
Proof.
  assert (H : reachable
                (init semaphore_value
                   (awaitables_of (jobs two_domains (index_major one_server))))
                first_in_dig).
  { eapply reach_step; [apply reach_init|].
    exact (step_acquire 49 [] _ [_]). }
  split; [reflexivity|].
  exact (batch_never_stuck _ _ _ H eq_refl).
Defined.

Lemma repeat_within (cs : list (coro (option PingResults))) :
  Forall (within 4) cs ->
  Forall2 (fun b t => within b (snd t)) (repeat 4%nat (List.length cs))
          (map (pair false) cs).
Proof.
  induction 1 as [|c cs Hc Hcs IH]; cbn; constructor; assumption.
Qed.

Lemma list_sum_repeat a n : list_sum (repeat a n) = (n * a)%nat.
Proof.
  induction n as [|n IH]; [reflexivity|]. cbn [repeat].
  change (list_sum (a :: repeat a n)) with (a + list_sum (repeat a n))%nat.
  rewrite IH. lia.
Qed.

Lemma within_jobs domains pairs :
  Forall (within 4) (awaitables_of (jobs domains pairs)).
Proof.
  unfold awaitables_of, jobs. apply Forall_map, Forall_flat_map.
  apply Forall_forall. intros domain _. apply Forall_map.
  apply Forall_forall. intros [provider server] _.
  apply within_get_results.
Qed.

(** X18.  The batch ends: whatever the schedule and the outcomes of the
    processes, the event loop resumes the tasks of [main] at most four
    times each (for the slot, after [dig], after [ping], for the
    release). *)
Theorem batch_terminates (servers : list (str * list str))
  (domains : list str) (n : nat) (s : state (option PingResults)) :
  steps n
    (init semaphore_value (awaitables_of (jobs domains (index_major servers)))) s ->
  (n <= 4 * List.length (jobs domains (index_major servers)))%nat.
Proof.
  intros Hs.
  set (cs := awaitables_of (jobs domains (index_major servers))) in *.
  assert (H0 : exists bs,
             Forall2 (fun b t => within b (snd t)) bs
                     (tasks (init semaphore_value cs)) /\
             (list_sum bs <= 4 * List.length (jobs domains (index_major servers)))%nat).
  { exists (repeat 4%nat (List.length cs)). split.
    - apply repeat_within, within_jobs.
    - rewrite list_sum_repeat. unfold cs, awaitables_of. rewrite length_map. lia. }
  destruct (steps_bound _ _ H0 n s Hs) as (bs & _ & Hle). lia.
Qed.

Lemma batch_terminates_witness :
  steps 1
    (init semaphore_value (awaitables_of (jobs two_domains (index_major one_server))))
    first_in_dig /\
  (1 <= 4 * 2)%nat.
Proof.
  assert (H : steps 1
                (init semaphore_value
                   (awaitables_of (jobs two_domains (index_major one_server))))
                first_in_dig).
  { eapply steps_S; [apply steps_O|].
    exact (step_acquire 49 [] _ [_]). }
  split; [exact H|].
  exact (batch_terminates _ _ _ _ H).
Defined.

End PoolRunProps.

(* ================================================================== *)
(** * Properties of the printed table *)
(* ================================================================== *)

Module ReportProps.
Import Py Parser Grammar Batch Dict Report Samples ParserFacts.

Lemma tabs_app a b : tabs (a ++ b) = (tabs a + tabs b)%nat.
Proof. apply occ_app. Qed.

Lemma tabs_join parts :
  Forall (fun part => tabs part = 0%nat) parts ->
  tabs (join [tab] parts) = (List.length parts - 1)%nat.
Proof.
  induction 1 as [|part rest Hp Hrest IH]; [reflexivity|].
  destruct rest as [|part' rest].
  - cbn [join List.length]. rewrite Hp. reflexivity.
  - change (join [tab] (part :: part' :: rest))
      with (part ++ [tab] ++ join [tab] (part' :: rest)).
    rewrite !tabs_app, Hp, IH. change (tabs [tab]) with 1%nat.
    cbn [List.length]. lia.
Qed.

Lemma tabs_uint d :
  tabs (list_ascii_of_string (DecimalString.NilEmpty.string_of_uint d)) = 0%nat.
Proof.
  induction d as [|d IH|d IH|d IH|d IH|d IH|d IH|d IH|d IH|d IH|d IH];
    cbn [DecimalString.NilEmpty.string_of_uint list_ascii_of_string];
    [reflexivity|..];
    change (tabs (?c :: ?l)) with ((if Ascii.eqb c tab then 1 else 0) + tabs l)%nat;
    rewrite IH; reflexivity.
Qed.

Lemma tabs_str_of_nat n : tabs (str_of_nat n) = 0%nat.
Proof.
  unfold str_of_nat, DecimalString.NilZero.string_of_uint.
  destruct (Nat.to_uint n) eqn:E; try (rewrite <- E; apply tabs_uint).
  reflexivity.
Qed.

Lemma tabs_cell_text str_of_float c :
  (forall q, tabs (str_of_float q) = 0%nat) ->
  tabs (cell_text str_of_float c) = 0%nat.
Proof.
  intros Hf. unfold cell_text.
  destruct (mean c), (annotation c) as [[a b]|];
    rewrite ?tabs_app, ?tabs_str_of_nat, ?Hf; reflexivity.
Qed.

Lemma tabs_cell_of_provider str_of_float d provider :
  (forall q, tabs (str_of_float q) = 0%nat) ->
  tabs (cell_of_provider str_of_float d provider) = 0%nat.
Proof.
  intros Hf. unfold cell_of_provider.
  destruct (get d provider); [now apply tabs_cell_text|reflexivity].
Qed.

(** X13.  The printed table is rectangular: when there is at least one
    provider, and neither the names nor the text of a float hold a tab,
    the header and every row have exactly as many tabs as there are
    providers, one column per provider in configuration order, whether or
    not the row has a cell for the provider. *)
Theorem report_is_rectangular (str_of_float : Q -> str)
  (servers : list (str * list str)) (t : table) (line : str) :
  servers <> [] ->
  (forall q, tabs (str_of_float q) = 0%nat) ->
  Forall (fun provider => tabs provider = 0%nat) (map fst servers) ->
  Forall (fun domain => tabs domain = 0%nat) (map fst t) ->
  In line (report str_of_float servers t) ->
  tabs line = List.length servers.
Proof.
  intros Hne Hf Hps Hds Hin. unfold report in Hin.
  destruct Hin as [<-|Hin].
  - rewrite tabs_app, (tabs_join _ Hps), length_map.
    destruct servers; [contradiction|]. cbn [List.length]. cbn. lia.
  - apply in_map_iff in Hin as ([domain d] & <- & Hrow).
    unfold row_line. rewrite tabs_join.
    + cbn [List.length]. rewrite !length_map. lia.
    + constructor.
      * rewrite Forall_forall in Hds. apply Hds.
        apply in_map_iff. now exists (domain, d).
      * apply Forall_map, Forall_forall. intros provider _.
        now apply tabs_cell_of_provider.
Qed.

Lemma report_is_rectangular_witness :
  report (fun _ => lit "7.5") SERVERS
         [(lit "x.org", [(lit "google", cell_of [Some 7.5; None])])]
  = [tab :: lit "cloudflare" ++ [tab] ++ lit "google";
     lit "x.org" ++ [tab] ++ lit "[]" ++ [tab] ++ lit "7.5 (1/2)"] /\
  tabs (lit "x.org" ++ [tab] ++ lit "[]" ++ [tab] ++ lit "7.5 (1/2)") = 2%nat.
Proof.
  split; [reflexivity|].
  apply (report_is_rectangular (fun _ => lit "7.5") SERVERS
           [(lit "x.org", [(lit "google", cell_of [Some 7.5; None])])]).
  - discriminate.
  - reflexivity.
  - repeat constructor.
  - repeat constructor.
  - right. left. reflexivity.
Defined.

End ReportProps.

(* ================================================================== *)
(** * The answer of [dig] as the task sees it *)
(* ================================================================== *)

Module AnswerProps.
Import Py Parser Aio Task Words Samples Cases TaskFacts WordsFacts.

Lemma space_free_rev w : space_free w = true -> space_free (rev w) = true.
Proof.
  unfold space_free. rewrite !forallb_forall. intros H c Hc.
  apply H. now apply in_rev.
Qed.

(** Every word of [split] is a non-empty run without white space. *)
Lemma split_from_words s : forall cur,
  space_free cur = true ->
  Forall (fun w => w <> [] /\ space_free w = true) (split_from cur s).
Proof.
  assert (Hemit : forall cur : str, cur <> [] -> space_free cur = true ->
                  rev cur <> [] /\ space_free (rev cur) = true).
  { intros cur Hne Hc. split; [|now apply space_free_rev].
    intros E. apply Hne. now rewrite <- (rev_involutive cur), E. }
  induction s as [|c s IH]; intros cur Hcur; cbn [split_from].
  - destruct cur as [|x cur]; constructor; [|constructor].
    apply Hemit; [discriminate|assumption].
  - destruct (is_space c) eqn:Hc.
    + destruct cur as [|x cur]; [now apply IH|].
      constructor; [apply Hemit; [discriminate|assumption]|now apply IH].
    + apply IH. cbn [space_free forallb]. now rewrite Hc.
Qed.

(** X19.  The address that [dig] hands on is never empty and holds no
    white space: it is one word of the output. *)
Theorem dig_answer_is_a_word (env : list str -> result completed)
  (domain addr : str) (server : option str) :
  run env (dig domain server) = Return (Some addr) ->
  addr <> [] /\ space_free addr = true.
Proof.
  unfold dig. cbn [run].
  destruct (env (dig_cmd domain server)) as [proc|e]; [|discriminate].
  destruct (negb (returncode proc =? 0)%Z); [discriminate|].
  pose proof (split_from_words (strip (stdout proc)) [] eq_refl) as Hw.
  fold (split (strip (stdout proc))) in Hw.
  destruct (split (strip (stdout proc))) as [|a rest]; [discriminate|].
  intros [= <-]. now inversion Hw.
Qed.

Lemma dig_answer_is_a_word_witness :
  run unparsable_ping (dig (lit "example.com") None)
  = Return (Some (lit "93.184.216.34")) /\
  lit "93.184.216.34" <> [] /\ space_free (lit "93.184.216.34") = true.
Proof.
  split; [reflexivity|].
  exact (dig_answer_is_a_word unparsable_ping (lit "example.com")
           (lit "93.184.216.34") None eq_refl).
Defined.

(** X20.  The task returns [None] exactly when [dig] returned [None]: a
    [None] outcome always means that there was no record, never that
    [ping] failed or measured nothing. *)
Theorem none_means_no_record (env : list str -> result completed)
  (domain : str) (server provider : option str) (count : nat)
  (semaphore : option context_manager) :
  run env (get_results domain server provider count semaphore) = Return None
  <-> run env (dig domain server) = Return None.
Proof.
  rewrite run_get_results.
  destruct (run env (dig domain server)) as [[addr|]|e].
  - destruct (run env (ping addr count)) as [r|e].
    + split; discriminate.
    + rewrite run_handlers.
      destruct (is_CancelledError e), (is_Exception e); split; discriminate.
  - tauto.
  - rewrite run_handlers.
    destruct (is_CancelledError e), (is_Exception e); split; discriminate.
Qed.

Lemma none_means_no_record_witness :
  run no_record (dig (lit "example.invalid") (Some (lit "8.8.8.8"))) = Return None /\
  run no_record
      (get_results (lit "example.invalid") (Some (lit "8.8.8.8"))
                   (Some (lit "google")) 3 (Some Semaphore))
  = Return None.
Proof.
  split; [reflexivity|].
  exact (proj2 (none_means_no_record no_record (lit "example.invalid")
                  (Some (lit "8.8.8.8")) (Some (lit "google")) 3 (Some Semaphore))
               eq_refl).
Defined.

End AnswerProps.
